(** * Character-level LSTM language model: codec, windows, one-hot, network calls

    Shallow embedding of [LanguageModel.ipynb].  Python strings are lists of
    code points, [torch] tensors are a shape together with row-major data,
    Python dictionaries are [gmap]s, and a Python call that may raise returns
    an [outcome]. *)

From Stdlib Require Import ZArith QArith String Ascii.
From stdpp Require Import gmap list.

Open Scope Z_scope.

(** ** Python values *)

Abbreviation char := N (only parsing).
Abbreviation str := (list N) (only parsing).

Definition str_of (s : string) : str := map N_of_ascii (list_ascii_of_string s).

Inductive exn := AttributeError | IndexError | KeyError | RuntimeError | TypeError.

Inductive outcome (A : Type) : Type :=
  | Ok (a : A)
  | Raise (e : exn).
Arguments Ok {A} a.
Arguments Raise {A} e.

#[global] Instance outcome_ret : MRet outcome := fun _ a => Ok a.
#[global] Instance outcome_bind : MBind outcome := fun _ _ f m =>
  match m with Ok a => f a | Raise e => Raise e end.
#[global] Instance outcome_fmap : FMap outcome := fun _ _ f m =>
  match m with Ok a => Ok (f a) | Raise e => Raise e end.

(** [enumerate(l)] *)
Definition enumerate {A} (l : list A) : list (Z * A) :=
  imap (fun i x => (Z.of_nat i, x)) l.

(** [dict(pairs)]: later pairs overwrite earlier ones. *)
Definition py_dict `{Countable K} {V} (kvs : list (K * V)) : gmap K V :=
  foldl (fun m kv => <[kv.1 := kv.2]> m) ∅ kvs.

(** [d.get(k, dflt)] and [d[k]] *)
Definition dict_get `{Countable K} {V} (d : gmap K V) (k : K) (dflt : V) : V :=
  default dflt (d !! k).

Definition dict_getitem `{Countable K} {V} (d : gmap K V) (k : K) : outcome V :=
  match d !! k with
  | Some v => Ok v
  | None => Raise KeyError
  end.

(** ** Tensors *)

Record tensor (A : Type) : Type := Tensor { shape : list nat; data : list A }.
Arguments Tensor {A} shape data.
Arguments shape {A} t.
Arguments data {A} t.

Definition numel (sh : list nat) : nat := foldr Nat.mul 1%nat sh.

Definition wf_tensor {A} (t : tensor A) : Prop :=
  length (data t) = numel (shape t).

(** [torch.tensor(l)] for a flat Python list *)
Definition tensor1 {A} (l : list A) : tensor A := Tensor [length l] l.

(** Row-major offset of a full multi-index, [None] when out of bounds. *)
Fixpoint offset (sh ix : list nat) : option nat :=
  match sh, ix with
  | [], [] => Some 0%nat
  | d :: sh', i :: ix' =>
      if decide (i < d)%nat
      then o ← offset sh' ix'; Some (i * numel sh' + o)%nat
      else None
  | _, _ => None
  end.

Definition tget {A} (t : tensor A) (ix : list nat) : option A :=
  o ← offset (shape t) ix; data t !! o.

(** Bounds of a Python slice [start:stop] over a dimension of length [n]:
    a negative bound counts from the end, both are clamped to [0, n]. *)
Definition slice_bound (n : nat) (dflt : Z) (b : option Z) : nat :=
  match b with
  | None => Z.to_nat dflt
  | Some i =>
      if decide (i < 0) then Z.to_nat (Z.max 0 (i + Z.of_nat n))
      else Z.to_nat (Z.min i (Z.of_nat n))
  end.

Definition slice_lo (n : nat) (start : option Z) : nat := slice_bound n 0 start.
Definition slice_hi (n : nat) (stop : option Z) : nat :=
  slice_bound n (Z.of_nat n) stop.

(** [t[start:stop]]: a slice of the first dimension. *)
Definition slice_dim0 {A} (t : tensor A) (start stop : option Z)
  : outcome (tensor A) :=
  match shape t with
  | [] => Raise IndexError
  | d :: rest =>
      let lo := slice_lo d start in
      let hi := slice_hi d stop in
      let inner := numel rest in
      Ok (Tensor ((hi - lo)%nat :: rest)
                 (take ((hi - lo) * inner) (drop (lo * inner) (data t))))
  end.

(** [t[:, start:stop]]: every row of the first dimension is sliced. *)
Definition slice_dim1 {A} (t : tensor A) (start stop : option Z)
  : outcome (tensor A) :=
  match shape t with
  | b :: w :: rest =>
      let lo := slice_lo w start in
      let hi := slice_hi w stop in
      let inner := numel rest in
      Ok (Tensor (b :: (hi - lo)%nat :: rest)
                 (flat_map
                    (fun r => take ((hi - lo) * inner)
                                (drop ((r * w + lo) * inner) (data t)))
                    (seq 0 b)))
  | _ => Raise IndexError
  end.

(** ** Vocabulary codec *)

Section Codec.

(** [str.lower] of the Python runtime. *)
Variable lower : str -> str.

(** The module-level vocabulary string. *)
Variable chars : str.

Definition input_size : nat := length chars.

Definition char_to_int : gmap char Z :=
  py_dict (map (fun ic => (ic.2, ic.1)) (enumerate chars)).

Definition int_to_char : gmap Z char :=
  py_dict (map (fun ic => (ic.1, ic.2)) (enumerate chars)).

Definition tokenize (data : str) : tensor Z :=
  let data := lower data in
  let idx := map (fun ch => dict_get char_to_int ch (-1)) data in
  tensor1 (filter (fun i => i ≠ -1) idx).

(** [int_to_char[token]] *)
Definition decode (token : Z) : outcome char :=
  dict_getitem int_to_char token.

End Codec.

(** Lowercasing restricted to ASCII text. *)
Definition ascii_lower (s : str) : str :=
  map (fun c => if decide (65 ≤ c ∧ c ≤ 90)%N then (c + 32)%N else c) s.

Definition chars : str := str_of "abcdefghijklmnopqrstuvwxyz. ".

(** ** One-hot encoder *)

(** Row [i] of the identity matrix of size [n]. *)
Definition unit_row (n i : nat) : list Z :=
  map (fun k => if decide (i = k) then 1 else 0) (seq 0 n).

(** [torch.eye(n, dtype=int)] *)
Definition eye (n : nat) : tensor Z :=
  Tensor [n; n] (flat_map (unit_row n) (seq 0 n)).

(** An index into a dimension of length [n]; negative indices count from
    the end. *)
Definition norm_index (n : nat) (i : Z) : outcome nat :=
  if decide (0 ≤ i < Z.of_nat n) then Ok (Z.to_nat i)
  else if decide (- Z.of_nat n ≤ i < 0) then Ok (Z.to_nat (i + Z.of_nat n))
  else Raise IndexError.

(** [t[idx]] for an integer tensor [idx]: every entry of [idx] selects a row
    of the first dimension of [t]. *)
Definition tensor_index {A} (t : tensor A) (idx : tensor Z) : outcome (tensor A) :=
  match shape t with
  | [] => Raise IndexError
  | d :: rest =>
      let inner := numel rest in
      rows ← mapM (fun i => r ← norm_index d i;
                            Ok (take inner (drop (r * inner) (data t))))
                  (data idx);
      Ok (Tensor (shape idx ++ rest) (concat rows))
  end.

(** [t.float()]: the integers 0 and 1 are exactly representable. *)
Definition to_float (t : tensor Z) : tensor Q :=
  Tensor (shape t) (map inject_Z (data t)).

Definition onehot (idx : tensor Z) (input_size : nat) : outcome (tensor Q) :=
  inputs ← tensor_index (eye input_size) idx;
  Ok (to_float inputs).

(** The one-hot vector of token [i] over [V] symbols, as a list. *)
Definition onehot_row (V : nat) (i : Z) : list Q :=
  map inject_Z (unit_row V (Z.to_nat i)).

(** ** Windowed corpus sampler *)

Record Alice := { self_idx : tensor Z; self_size : Z }.

(** [len(t)] *)
Definition tensor_len {A} (t : tensor A) : outcome nat :=
  match shape t with
  | [] => Raise TypeError
  | d :: _ => Ok d
  end.

(** [__init__]; [data] is the text read from the corpus file. *)
Definition Alice_init (lower : str -> str) (chars : str) (data : str) (size : Z)
  : Alice :=
  {| self_idx := tokenize lower chars data; self_size := size |}.

Definition Alice_getitem (self : Alice) (index : Z) : outcome (tensor Z) :=
  slice_dim0 (self_idx self) (Some index) (Some (index + self_size self)).

Definition Alice_len (self : Alice) : outcome Z :=
  n ← tensor_len (self_idx self);
  Ok (Z.of_nat n - self_size self).

(** ** Trainer: teacher-forced input and target of one batch *)

Definition batch_inputs_targets (input_size : nat) (idx : tensor Z)
  : outcome (tensor Q * tensor Z) :=
  inputs ← onehot idx input_size;
  inputs ← slice_dim1 inputs None (Some (-1));
  targets ← slice_dim1 idx (Some 1) None;
  Ok (inputs, targets).

(** ** Recurrent language model *)

(** The numeric layers of [torch.nn] with their (fixed) weights: the scalar
    type of activations, the recurrence of [nn.LSTM] from an explicit
    (hidden, cell) state, the mask drawn by [nn.Dropout] in training mode and
    the affine map of [nn.Linear]. *)
Class TorchNet := {
  F : Type;
  fzero : F;
  fgt : F -> F -> bool;
  RNG : Type;
  lstm_core : tensor Q -> tensor F * tensor F ->
              outcome (tensor F * (tensor F * tensor F));
  dropout_train : RNG -> tensor F -> tensor F * RNG;
  linear : tensor F -> tensor F
}.

Definition hidden_size : nat := 128.

(** [torch.zeros(sh)] *)
Definition zeros `{TorchNet} (sh : list nat) : tensor F :=
  Tensor sh (replicate (numel sh) fzero).

(** The state [nn.LSTM] starts from when the caller passes none: zeros of
    shape (layers, batch, hidden), the batch being the first dimension of a
    [batch_first] input. *)
Definition zero_state `{TorchNet} (input : tensor Q) : tensor F * tensor F :=
  let sh := match shape input with
            | [b; _; _] => [1%nat; b; hidden_size]
            | _ => [1%nat; hidden_size]
            end in
  (zeros sh, zeros sh).

(** [self.lstm(input)] and [self.lstm(input, hx)] *)
Definition lstm `{TorchNet} (input : tensor Q) (hx : option (tensor F * tensor F))
  : outcome (tensor F * (tensor F * tensor F)) :=
  match hx with
  | None => lstm_core input (zero_state input)
  | Some s => lstm_core input s
  end.

(** A [MyRNN] instance: the mode flag of [nn.Module] and the attribute
    [hiddens], absent until [forward] assigns it. *)
Record MyRNN `{TorchNet} := {
  training : bool;
  hiddens : option (tensor F * tensor F)
}.

(** The interpreter state a call can touch: the network object and the
    global random generator. *)
Record world `{TorchNet} := { net : MyRNN; rng : RNG }.

Definition M `{TorchNet} (A : Type) : Type := world -> outcome A * world.

#[global] Instance M_ret `{TorchNet} : MRet M := fun _ a w => (Ok a, w).

#[global] Instance M_bind `{TorchNet} : MBind M := fun _ _ k m w =>
  match m w with
  | (Ok a, w') => k a w'
  | (Raise e, w') => (Raise e, w')
  end.

Definition lift `{TorchNet} {A} (r : outcome A) : M A := fun w => (r, w).

(** [MyRNN(input_size)]: modules are created in training mode. *)
Definition MyRNN_init `{TorchNet} : MyRNN :=
  {| training := true; hiddens := None |}.

(** [net.train()] and [net.eval()] *)
Definition set_training `{TorchNet} (mode : bool) : M unit :=
  fun w => (Ok tt, {| net := {| training := mode; hiddens := hiddens (net w) |};
                      rng := rng w |}).

(** [self.hiddens] *)
Definition get_hiddens `{TorchNet} : M (tensor F * tensor F) :=
  fun w => match hiddens (net w) with
           | Some h => (Ok h, w)
           | None => (Raise AttributeError, w)
           end.

(** [self.hiddens = h] *)
Definition set_hiddens `{TorchNet} (h : tensor F * tensor F) : M unit :=
  fun w => (Ok tt, {| net := {| training := training (net w); hiddens := Some h |};
                      rng := rng w |}).

(** [self.dropout(x)]: the identity in evaluation mode. *)
Definition dropout `{TorchNet} (x : tensor F) : M (tensor F) :=
  fun w => if training (net w)
           then let (y, g) := dropout_train (rng w) x in
                (Ok y, {| net := net w; rng := g |})
           else (Ok x, w).

Definition forward `{TorchNet} (input : tensor Q) (zero_hidden : bool)
  : M (tensor F) :=
  '(output, hiddens) ←
     (if zero_hidden
      then lift (lstm input None)
      else h ← get_hiddens; lift (lstm input (Some h)));
  set_hiddens hiddens;;
  output ← dropout output;
  mret (linear output).

(** The state a call starts its recurrence from, and the instance after the
    assignment to [self.hiddens]. *)
Definition initial_state `{TorchNet} (x : tensor Q) (z : bool) (w : world)
  : option (tensor F * tensor F) :=
  if z then Some (zero_state x) else hiddens (net w).

Definition store `{TorchNet} (h : tensor F * tensor F) (w : world) : world :=
  {| net := {| training := training (net w); hiddens := Some h |};
     rng := rng w |}.

(** ** Generator *)

(** Index and value of the first maximal entry of a row. *)
Fixpoint argmax_from `{TorchNet} (best : F) (besti i : Z) (l : list F) : F * Z :=
  match l with
  | [] => (best, besti)
  | x :: l' =>
      if fgt x best then argmax_from x i (i + 1) l'
      else argmax_from best besti (i + 1) l'
  end.

Definition argmax_row `{TorchNet} (l : list F) : option (F * Z) :=
  match l with
  | [] => None
  | x :: l' => Some (argmax_from x 0 1 l')
  end.

(** [torch.max(t, 2)] on a rank-3 tensor: maxima and their indices along the
    last dimension.  The network output has the rank of its input, so no
    other rank is reduced here. *)
Definition torch_max2 `{TorchNet} (t : tensor F) : outcome (tensor F * tensor Z) :=
  match shape t with
  | [b; l; v] =>
      rows ← mapM (fun r => match argmax_row (take v (drop (r * v) (data t))) with
                            | Some p => Ok p
                            | None => Raise IndexError
                            end)
                  (seq 0 (b * l));
      Ok (Tensor [b; l] (rows.*1), Tensor [b; l] (rows.*2))
  | _ => Raise IndexError
  end.

(** Value and index of the first maximum of row [r] of row-major data with
    rows of length [v]. *)
Definition row_argmax `{TorchNet} (v : nat) (d : list F) (r : nat) : F * Z :=
  default (fzero, 0) (argmax_row (take v (drop (r * v) d))).

(** [t[i, j].item()] on a rank-2 tensor *)
Definition item2 {A} (t : tensor A) (i j : Z) : outcome A :=
  match shape t with
  | [b; l] =>
      i' ← norm_index b i;
      j' ← norm_index l j;
      match data t !! (i' * l + j')%nat with
      | Some x => Ok x
      | None => Raise IndexError
      end
  | _ => Raise IndexError
  end.

(** [torch.unsqueeze(t, 0)] *)
Definition unsqueeze0 {A} (t : tensor A) : tensor A :=
  Tensor (1%nat :: shape t) (data t).

Section Generator.

Context `{TorchNet}.
Variable lower : str -> str.
Variable chars : str.

(** The body of [for i in range(gen_length)], iterated [n] times. *)
Fixpoint gen_loop (n : nat) (idx : tensor Z) (output : str) (zero_hidden : bool)
  : M str :=
  match n with
  | O => mret output
  | S n' =>
      inputs ← lift (onehot idx (input_size chars));
      let inputs := unsqueeze0 inputs in
      outputs ← forward inputs zero_hidden;
      '(_, predicted) ← lift (torch_max2 outputs);
      token ← lift (item2 predicted 0 (-1));
      ch ← lift (decode chars token);
      let output := output ++ [ch] in
      let idx := tensor1 [token] in
      let zero_hidden := false in
      gen_loop n' idx output zero_hidden
  end.

Definition generate (pretext : str) (gen_length : Z) : M str :=
  let idx := tokenize lower chars pretext in
  let output := pretext in
  let zero_hidden := true in
  set_training false;;
  gen_loop (Z.to_nat gen_length) idx output zero_hidden.

End Generator.

(** The interpreter state right after [net = MyRNN(input_size)]. *)
Definition fresh_world `{TorchNet} (g : RNG) : world :=
  {| net := MyRNN_init; rng := g |}.

(** ** Reading a run of the network *)

(** The index selected from the logits of one call: the first maximum of the
    final time step of the first batch row. *)
Definition last_step_argmax `{TorchNet} (outputs : tensor F) : option Z :=
  match shape outputs with
  | [_; l; v] => snd <$> argmax_row (take v (drop ((l - 1) * v) (data outputs)))
  | _ => None
  end.

(** A generation run written as the list of tokens it selects: every step
    feeds the current tokens to one [forward] call and selects the argmax of
    its final time step; the first call is fresh, the later ones continued
    on the single token selected before. *)
Inductive gen_run `{TorchNet} (V : nat)
  : nat -> tensor Z -> bool -> world -> list Z -> world -> Prop :=
  | gen_run_done idx z w : gen_run V 0 idx z w [] w
  | gen_run_step n idx z w inputs outputs w1 token toks w2 :
      onehot idx V = Ok inputs ->
      forward (unsqueeze0 inputs) z w = (Ok outputs, w1) ->
      last_step_argmax outputs = Some token ->
      gen_run V n (tensor1 [token]) false w1 toks w2 ->
      gen_run V (S n) idx z w (token :: toks) w2.

(** A sequence of [forward] calls on one instance, each call's exception
    caught by the caller; the outcomes are listed in call order. *)
Fixpoint run_calls `{TorchNet} (calls : list (tensor Q * bool)) (w : world)
  : list (outcome (tensor F)) * world :=
  match calls with
  | [] => ([], w)
  | (input, zero_hidden) :: calls' =>
      let (r, w1) := forward input zero_hidden w in
      let (rs, w2) := run_calls calls' w1 in
      (r :: rs, w2)
  end.

Definition is_raise {A} (r : outcome A) : Prop :=
  match r with Raise _ => True | Ok _ => False end.

(** The shapes [nn.LSTM] and [nn.Linear] work with, for a vocabulary of [V]
    symbols: a (hidden, cell) state for batch size [b]; the recurrence keeps
    batch and time dimensions and runs on every non-empty sequence; the
    projection maps hidden vectors to [V] logits per time step. *)
Definition state_ok `{TorchNet} (b : nat) (s : tensor F * tensor F) : Prop :=
  shape s.1 = [1%nat; b; hidden_size] ∧ shape s.2 = [1%nat; b; hidden_size].

Class NetContract `{TorchNet} (V : nat) : Prop := {
  lstm_shape : forall x s out s' b l v,
    lstm_core x s = Ok (out, s') -> shape x = [b; l; v] ->
    shape out = [b; l; hidden_size];
  lstm_runs : forall x s b l,
    shape x = [b; l; V] -> wf_tensor x -> (0 < l)%nat -> state_ok b s ->
    exists out s', lstm_core x s = Ok (out, s') ∧ state_ok b s';
  linear_shape : forall x b l,
    shape x = [b; l; hidden_size] ->
    shape (linear x) = [b; l; V] ∧ wf_tensor (linear x)
}.

(** What one iteration of the generation loop needs: evaluation mode, a
    non-empty rank-1 tensor of valid tokens, and, unless the call is fresh, a
    stored state for batch size 1. *)
Definition ready `{TorchNet} (V : nat) (idx : tensor Z) (z : bool) (w : world)
  : Prop :=
  training (net w) = false
  ∧ (exists l, (0 < l)%nat ∧ shape idx = [l] ∧ length (data idx) = l)
  ∧ Forall (fun i => 0 ≤ i < Z.of_nat V) (data idx)
  ∧ (z = true ∨ exists s, hiddens (net w) = Some s ∧ state_ok 1 s).

(** A network with constant weights: the recurrence outputs zeros and keeps
    its state, the projection puts its only positive logit at index [k]. *)
Definition const_net (V k : nat) : TorchNet := {|
  F := Z;
  fzero := 0;
  fgt := Z.gtb;
  RNG := unit;
  lstm_core := fun x s =>
    match shape x with
    | [b; l; _] =>
        Ok (Tensor [b; l; hidden_size] (replicate (b * l * hidden_size) 0), s)
    | _ => Raise RuntimeError
    end;
  dropout_train := fun g x => (x, g);
  linear := fun x =>
    match shape x with
    | [b; l; _] =>
        Tensor [b; l; V]
          (flat_map (fun _ => map (fun j => if decide (j = k) then 1 else 0)
                                (seq 0 V))
             (seq 0 (b * l)))
    | _ => x
    end
|}.

(** A network whose recurrence counts: it adds the number of time steps of
    the input to every entry of the hidden tensor, keeps the cell tensor and
    outputs zeros; the projection puts its only positive logit at index 0. *)
Definition count_net (V : nat) : TorchNet := {|
  F := Z;
  fzero := 0;
  fgt := Z.gtb;
  RNG := unit;
  lstm_core := fun x s =>
    match shape x with
    | [b; l; _] =>
        Ok (Tensor [b; l; hidden_size] (replicate (b * l * hidden_size) 0),
            (Tensor (shape s.1) (map (Z.add (Z.of_nat l)) (data s.1)), s.2))
    | _ => Raise RuntimeError
    end;
  dropout_train := fun g x => (x, g);
  linear := fun x =>
    match shape x with
    | [b; l; _] =>
        Tensor [b; l; V]
          (flat_map (fun _ => map (fun j => if decide (j = 0%nat) then 1 else 0)
                                (seq 0 V))
             (seq 0 (b * l)))
    | _ => x
    end
|}.

(** The token stream of the four-symbol scenario and its sampler. *)
Definition abab_tokens : list Z := [0; 1; 0; 1; 2; 1; 0].

Definition abab_dataset : Alice :=
  Alice_init ascii_lower (str_of "ab. ") (str_of "abab.ba") 4.


(** * Properties *)

(** ** The code on small inputs *)

Example tokenize_pretext :
  tokenize ascii_lower chars (str_of "The india 123")
  = tensor1 [19; 7; 4; 27; 8; 13; 3; 8; 0; 27].
Proof. by vm_compute. Qed.

Example tokenize_digits : tokenize ascii_lower chars (str_of "2024!") = tensor1 [].
Proof. by vm_compute. Qed.

Example onehot_two_tokens :
  onehot (tensor1 [0; 2]) 3
  = Ok (Tensor [2; 3]%nat [1; 0; 0; 0; 0; 1]%Q).
Proof. by vm_compute. Qed.

Example onehot_negative_index_wraps :
  onehot (tensor1 [-1]) 3 = Ok (Tensor [1; 3]%nat [0; 0; 1]%Q)
  ∧ onehot (tensor1 [3]) 3 = Raise IndexError.
Proof. by vm_compute. Qed.

Example batch_two_windows :
  batch_inputs_targets 3 (Tensor [2; 3]%nat [0; 1; 2; 2; 1; 0])
  = Ok (Tensor [2; 2; 3]%nat [1; 0; 0; 0; 1; 0; 0; 0; 1; 0; 1; 0]%Q,
        Tensor [2; 2]%nat [1; 2; 1; 0]).
Proof. by vm_compute. Qed.

Example generate_constant_net :
  (@generate (const_net 28 3) ascii_lower chars (str_of "The india!") 5
     (@fresh_world (const_net 28 3) tt)).1
  = Ok (str_of "The india!ddddd").
Proof. by vm_compute. Qed.

(** ** Dictionaries built from [enumerate] *)

Lemma py_dict_snoc `{Countable K} {V} (kvs : list (K * V)) k v :
  py_dict (kvs ++ [(k, v)]) = <[k := v]> (py_dict kvs).
Proof. unfold py_dict. by rewrite foldl_app. Qed.

Lemma enumerate_snoc {A} (l : list A) x :
  enumerate (l ++ [x]) = enumerate l ++ [(Z.of_nat (length l), x)].
Proof.
  unfold enumerate. rewrite imap_app. simpl.
  by rewrite Nat.add_0_r.
Qed.

Lemma int_to_char_snoc cs x :
  int_to_char (cs ++ [x]) = <[Z.of_nat (length cs) := x]> (int_to_char cs).
Proof.
  unfold int_to_char. rewrite enumerate_snoc, map_app. simpl.
  apply py_dict_snoc.
Qed.

Lemma char_to_int_snoc cs x :
  char_to_int (cs ++ [x]) = <[x := Z.of_nat (length cs)]> (char_to_int cs).
Proof.
  unfold char_to_int. rewrite enumerate_snoc, map_app. simpl.
  apply py_dict_snoc.
Qed.

Lemma int_to_char_lookup cs i :
  int_to_char cs !! i = if decide (0 ≤ i) then cs !! Z.to_nat i else None.
Proof.
  induction cs as [|x cs IH] using rev_ind.
  - unfold int_to_char, py_dict. simpl. rewrite lookup_empty.
    by destruct (decide _).
  - rewrite int_to_char_snoc, lookup_insert. destruct (decide (_ = i)) as [<-|Hne].
    + rewrite decide_True by lia. rewrite Nat2Z.id.
      by rewrite lookup_app_r, Nat.sub_diag.
    + rewrite IH. destruct (decide (0 ≤ i)); [|done].
      destruct (decide (Z.to_nat i < length cs)%nat).
      * by rewrite lookup_app_l.
      * rewrite !lookup_ge_None_2; [done| |lia].
        rewrite length_app. simpl. lia.
Qed.

Lemma char_to_int_lookup_Some cs c i :
  char_to_int cs !! c = Some i -> 0 ≤ i ∧ cs !! Z.to_nat i = Some c.
Proof.
  revert i. induction cs as [|x cs IH] using rev_ind; intros i.
  - unfold char_to_int, py_dict. simpl. by rewrite lookup_empty.
  - rewrite char_to_int_snoc, lookup_insert. destruct (decide (x = c)) as [->|Hne].
    + intros [= <-]. split; [lia|]. rewrite Nat2Z.id.
      by rewrite lookup_app_r, Nat.sub_diag.
    + intros Hi. destruct (IH _ Hi) as [H0 Hl]. split; [done|].
      rewrite lookup_app_l; [done|]. by eapply lookup_lt_Some.
Qed.

Lemma char_to_int_lookup_None cs c :
  char_to_int cs !! c = None <-> c ∉ cs.
Proof.
  induction cs as [|x cs IH] using rev_ind.
  - unfold char_to_int, py_dict. simpl. rewrite lookup_empty.
    split; [intros _; apply not_elem_of_nil | done].
  - rewrite char_to_int_snoc, lookup_insert. rewrite not_elem_of_app.
    destruct (decide (x = c)) as [->|Hne].
    + split; [done|]. intros [_ Hc]. exfalso. apply Hc. by left.
    + rewrite IH. split; [|tauto]. intros Hc. split; [done|].
      intros Hin%list_elem_of_singleton. congruence.
Qed.

(** A character of the vocabulary receives a token that decodes to itself;
    any other character receives the marker [-1]. *)
Lemma dict_get_in cs c :
  c ∈ cs ->
  dict_get (char_to_int cs) c (-1) ≠ -1 ∧
  decode cs (dict_get (char_to_int cs) c (-1)) = Ok c.
Proof.
  intros Hc. unfold dict_get, decode, dict_getitem.
  destruct (char_to_int cs !! c) as [i|] eqn:Hi.
  - apply char_to_int_lookup_Some in Hi as [H0 Hl]. simpl. split; [lia|].
    rewrite int_to_char_lookup, decide_True by done. by rewrite Hl.
  - apply char_to_int_lookup_None in Hi. done.
Qed.

Lemma dict_get_notin cs c :
  c ∉ cs -> dict_get (char_to_int cs) c (-1) = -1.
Proof.
  intros Hc. unfold dict_get.
  apply char_to_int_lookup_None in Hc. by rewrite Hc.
Qed.

Lemma dict_get_range cs c :
  c ∈ cs -> 0 ≤ dict_get (char_to_int cs) c (-1) < Z.of_nat (length cs).
Proof.
  intros Hc. unfold dict_get.
  destruct (char_to_int cs !! c) as [i|] eqn:Hi.
  - apply char_to_int_lookup_Some in Hi as [H0 Hl]. simpl.
    apply lookup_lt_Some in Hl. lia.
  - apply char_to_int_lookup_None in Hi. done.
Qed.

Lemma decode_tokens cs (l : str) :
  mapM (decode cs)
    (filter (fun i => i ≠ -1) (map (fun ch => dict_get (char_to_int cs) ch (-1)) l))
  = Ok (filter (fun c => c ∈ cs) l).
Proof.
  induction l as [|c l IH]; [done|].
  simpl map. rewrite !filter_cons.
  destruct (decide (c ∈ cs)) as [Hc|Hc].
  - destruct (dict_get_in cs c Hc) as [Hne Hdec].
    rewrite decide_True by done. simpl. rewrite Hdec. simpl.
    rewrite IH. done.
  - rewrite (dict_get_notin cs c Hc). rewrite decide_False by (intros ?; done).
    done.
Qed.

(** C1. Decoding every token of [tokenize t] and concatenating the characters
    gives the lowercased text with the characters outside the vocabulary
    deleted, and nothing else changed; this holds for the 28-symbol
    vocabulary as for any other. *)
Theorem decode_tokenize_roundtrip (lower : str -> str) (cs t : str) :
  mapM (decode cs) (data (tokenize lower cs t))
  = Ok (filter (fun c => c ∈ cs) (lower t))
  ∧ mapM (decode chars) (data (tokenize lower chars t))
  = Ok (filter (fun c => c ∈ chars) (lower t)).
Proof.
  split; unfold tokenize; simpl; apply decode_tokens.
Qed.

Lemma tokens_omap cs (l : str) :
  filter (fun i => i ≠ -1) (map (fun ch => dict_get (char_to_int cs) ch (-1)) l)
  = omap (fun c => char_to_int cs !! c) l.
Proof.
  induction l as [|c l IH]; [done|].
  simpl. rewrite filter_cons, IH.
  destruct (char_to_int cs !! c) as [i|] eqn:Hi.
  - assert (Hg : dict_get (char_to_int cs) c (-1) = i)
      by (unfold dict_get; by rewrite Hi).
    apply char_to_int_lookup_Some in Hi as [H0 _].
    rewrite Hg. by rewrite decide_True by lia.
  - assert (Hg : dict_get (char_to_int cs) c (-1) = -1)
      by (unfold dict_get; by rewrite Hi).
    rewrite Hg. by rewrite decide_False by (intros ?; done).
Qed.

Lemma tokens_range cs (l : str) :
  Forall (fun i => 0 ≤ i < Z.of_nat (length cs))
    (omap (fun c => char_to_int cs !! c) l).
Proof.
  induction l as [|c l IH]; simpl; [constructor|].
  destruct (char_to_int cs !! c) as [i|] eqn:Hi; [|done].
  constructor; [|done].
  apply char_to_int_lookup_Some in Hi as [H0 Hl].
  apply lookup_lt_Some in Hl. lia.
Qed.

Lemma tokens_length cs (l : str) :
  length (omap (fun c => char_to_int cs !! c) l)
  = length (filter (fun c => c ∈ cs) l).
Proof.
  induction l as [|c l IH]; [done|].
  simpl. rewrite filter_cons.
  destruct (char_to_int cs !! c) as [i|] eqn:Hi.
  - apply char_to_int_lookup_Some in Hi as [_ Hl].
    apply list_elem_of_lookup_2 in Hl.
    rewrite decide_True by done. simpl. f_equal. exact IH.
  - apply char_to_int_lookup_None in Hi.
    rewrite decide_False by done. exact IH.
Qed.

Lemma tokens_none cs (l : str) :
  Forall (fun c => c ∉ cs) l -> omap (fun c => char_to_int cs !! c) l = [].
Proof.
  induction 1 as [|c l Hc _ IH]; [done|].
  simpl. apply char_to_int_lookup_None in Hc. by rewrite Hc.
Qed.

(** C9. [tokenize] is total: for every text it returns the rank-1 tensor of
    the indices of the characters of the lowercased text that are in the
    vocabulary, in order; a character outside the vocabulary contributes
    nothing, so a text with no vocabulary character gives the empty tensor.
    The value carries neither an error nor a count of what was dropped. *)
Theorem tokenize_never_raises (lower : str -> str) (cs t : str) :
  exists toks : list Z,
    tokenize lower cs t = tensor1 toks
    ∧ toks = omap (fun c => char_to_int cs !! c) (lower t)
    ∧ length toks = length (filter (fun c => c ∈ cs) (lower t))
    ∧ Forall (fun i => 0 ≤ i < Z.of_nat (length cs)) toks
    ∧ (Forall (fun c => c ∉ cs) (lower t) ↔ toks = []).
Proof.
  exists (omap (fun c => char_to_int cs !! c) (lower t)).
  split; [unfold tokenize; by rewrite tokens_omap|].
  split; [done|].
  split; [apply tokens_length|].
  split; [apply tokens_range|].
  split; [apply tokens_none|].
  intros Hnil. apply Forall_forall. intros c Hc Hin.
  pose proof (tokens_length cs (lower t)) as Hlen. rewrite Hnil in Hlen.
  assert (Hf : c ∈ filter (fun c => c ∈ cs) (lower t))
    by (apply list_elem_of_filter; done).
  destruct (filter _ _); [by apply elem_of_nil in Hf|done].
Qed.

(** ** Windows of the corpus *)

Lemma slice_bounds_le (n : nat) (start stop : option Z) :
  (slice_lo n start ≤ n)%nat ∧ (slice_hi n stop ≤ n)%nat.
Proof.
  unfold slice_lo, slice_hi, slice_bound.
  destruct start as [i|], stop as [j|]; repeat case_decide; lia.
Qed.

Lemma getitem_slice (toks : list Z) (W i : Z) :
  let lo := slice_lo (length toks) (Some i) in
  let hi := slice_hi (length toks) (Some (i + W)) in
  Alice_getitem {| self_idx := tensor1 toks; self_size := W |} i
  = Ok (tensor1 (take (hi - lo) (drop lo toks))).
Proof.
  intros lo hi.
  assert (Hb : (lo ≤ length toks)%nat ∧ (hi ≤ length toks)%nat)
    by apply (slice_bounds_le (length toks) (Some i) (Some (i + W))).
  unfold Alice_getitem, slice_dim0, tensor1. simpl.
  fold lo hi. rewrite !Nat.mul_1_r. do 2 f_equal.
  rewrite length_take, length_drop. subst lo hi.
  unfold slice_lo, slice_hi, slice_bound in *. f_equal.
  repeat case_decide; lia.
Qed.

Lemma getitem_in_range (toks : list Z) (W i : Z) :
  0 ≤ W -> 0 ≤ i -> i + W ≤ Z.of_nat (length toks) ->
  Alice_getitem {| self_idx := tensor1 toks; self_size := W |} i
  = Ok (tensor1 (take (Z.to_nat W) (drop (Z.to_nat i) toks))).
Proof.
  intros HW Hi Hle. rewrite getitem_slice.
  unfold slice_lo, slice_hi, slice_bound.
  rewrite !decide_False by lia.
  rewrite !Z.min_l by lia.
  by replace (Z.to_nat (i + W) - Z.to_nat i)%nat with (Z.to_nat W) by lia.
Qed.

Lemma tokenize_tensor1 lower cs t :
  tokenize lower cs t = tensor1 (data (tokenize lower cs t)).
Proof. done. Qed.

Lemma Alice_init_eq lower cs t W :
  Alice_init lower cs t W
  = {| self_idx := tensor1 (data (tokenize lower cs t)); self_size := W |}.
Proof. done. Qed.

(** C2. For a corpus of [N] tokens and a window size [W] with [0 ≤ W < N],
    the sampler has length [N - W], and for every [i] in [0, N - W) item [i]
    is the [W] consecutive tokens starting at position [i].  On the token
    stream 0,1,0,1,2,1,0 of the text "abab.ba" over the vocabulary "ab. "
    with [W = 4] it has exactly the three windows 0,1,0,1 / 1,0,1,2 /
    0,1,2,1. *)
Theorem sampler_windows :
  (forall (lower : str -> str) (cs text : str) (W : Z),
     let ds := Alice_init lower cs text W in
     let toks := data (self_idx ds) in
     let N := Z.of_nat (length toks) in
     0 ≤ W < N ->
     Alice_len ds = Ok (N - W)
     ∧ forall i, 0 ≤ i < N - W ->
         exists win,
           Alice_getitem ds i = Ok (tensor1 win)
           ∧ win = take (Z.to_nat W) (drop (Z.to_nat i) toks)
           ∧ Z.of_nat (length win) = W
           ∧ forall j, (j < Z.to_nat W)%nat ->
               win !! j = toks !! (Z.to_nat i + j)%nat)
  ∧ (data (self_idx abab_dataset) = abab_tokens
     ∧ Alice_len abab_dataset = Ok 3
     ∧ Alice_getitem abab_dataset 0 = Ok (tensor1 [0; 1; 0; 1])
     ∧ Alice_getitem abab_dataset 1 = Ok (tensor1 [1; 0; 1; 2])
     ∧ Alice_getitem abab_dataset 2 = Ok (tensor1 [0; 1; 2; 1])).
Proof.
  split.
  - intros lower cs text W ds toks N HW. split; [done|].
    intros i Hi. exists (take (Z.to_nat W) (drop (Z.to_nat i) toks)).
    split.
    { unfold ds. rewrite Alice_init_eq. apply getitem_in_range; [lia..|].
      fold toks N. unfold toks, ds. simpl. fold toks. lia. }
    split; [done|]. split.
    + rewrite length_take, length_drop. fold N. lia.
    + intros j Hj. rewrite lookup_take, decide_True by done.
      by rewrite lookup_drop.
  - repeat split; vm_compute; reflexivity.
Qed.

Lemma sampler_windows_witness :
  let ds := Alice_init ascii_lower chars (str_of "hello world") 5 in
  0 ≤ 5 < Z.of_nat (length (data (self_idx ds)))
  ∧ Alice_len ds = Ok (Z.of_nat (length (data (self_idx ds))) - 5).
Proof.
  split; [vm_compute; split; [discriminate | reflexivity]|].
  apply (proj1 sampler_windows ascii_lower chars (str_of "hello world") 5).
  vm_compute. split; [discriminate | reflexivity].
Defined.

(** An index outside [0, N - W) raises nothing: with seven tokens and
    [W = 4], index 3 = N - W returns the last four tokens, index 5 a window
    cut short at the end of the corpus, index 100 and index -1 the empty
    tensor, and index -6 the window that starts six tokens before the end. *)
Lemma getitem_out_of_range_returns :
  Alice_len abab_dataset = Ok 3
  ∧ Alice_getitem abab_dataset 3 = Ok (tensor1 [1; 2; 1; 0])
  ∧ Alice_getitem abab_dataset 5 = Ok (tensor1 [1; 0])
  ∧ Alice_getitem abab_dataset 100 = Ok (tensor1 [])
  ∧ Alice_getitem abab_dataset (-1) = Ok (tensor1 [])
  ∧ Alice_getitem abab_dataset (-6) = Ok (tensor1 [1; 0; 1; 2])
  ∧ ¬ (forall i, ¬ (0 ≤ i < 3) ->
         exists e, Alice_getitem abab_dataset i = Raise e).
Proof.
  repeat split; try (vm_compute; reflexivity).
  intros Hall. destruct (Hall 3) as [e He]; [lia|].
  vm_compute in He. discriminate.
Qed.

(** C3 (as the code behaves). [__getitem__] performs no bounds check: for
    every index [i], inside or outside [0, N - W), it returns the slice of
    the tokens between the clamped bounds of [i] and [i + W], a negative
    bound counting from the end.  For [W ≥ 0] the result never has more than
    [W] tokens; it is empty for [i ≥ N], and for [0 ≤ i] with
    [N - W ≤ i < N] it is the [N - i] tokens that remain from position
    [i]. *)
Theorem getitem_never_raises (lower : str -> str) (cs text : str) (W i : Z) :
  let ds := Alice_init lower cs text W in
  let toks := data (self_idx ds) in
  let N := Z.of_nat (length toks) in
  let clamp j := if decide (j < 0) then Z.max 0 (j + N) else Z.min j N in
  exists win,
    Alice_getitem ds i = Ok (tensor1 win)
    ∧ win = take (Z.to_nat (clamp (i + W)) - Z.to_nat (clamp i))
              (drop (Z.to_nat (clamp i)) toks)
    ∧ (0 ≤ W -> Z.of_nat (length win) ≤ W)
    ∧ (N ≤ i -> win = [])
    ∧ (0 ≤ i -> N - W ≤ i < N ->
       win = drop (Z.to_nat i) toks ∧ Z.of_nat (length win) = N - i).
Proof.
  intros ds toks N clamp.
  exists (take (Z.to_nat (clamp (i + W)) - Z.to_nat (clamp i))
            (drop (Z.to_nat (clamp i)) toks)).
  split.
  { unfold ds. rewrite Alice_init_eq, getitem_slice.
    unfold slice_lo, slice_hi, slice_bound. fold toks. fold N.
    unfold clamp. by repeat case_decide. }
  split; [done|].
  split.
  { intros HW. rewrite length_take, length_drop. fold N. unfold clamp.
    repeat case_decide; lia. }
  split.
  - intros Hi. rewrite drop_ge; [by rewrite take_nil|].
    unfold clamp. fold N. repeat case_decide; lia.
  - intros H0 Hi.
    assert (Hc : clamp i = i) by (unfold clamp; case_decide; lia).
    assert (Hc' : clamp (i + W) = N) by (unfold clamp; case_decide; lia).
    rewrite Hc, Hc'. split.
    + apply take_ge. rewrite length_drop. fold N. lia.
    + rewrite length_take, length_drop. fold N. lia.
Qed.

(** ** Row-major data *)

Lemma mapM_Ok {A B} (f : A -> outcome B) (g : A -> B) (l : list A) :
  Forall (fun x => f x = Ok (g x)) l -> mapM f l = Ok (map g l).
Proof.
  induction 1 as [|x l Hx _ IH]; [done|].
  simpl. rewrite Hx. simpl. by rewrite IH.
Qed.

Lemma flat_map_chunk {A B} (f : A -> list B) (n : nat) (l : list A) r x :
  Forall (fun y => length (f y) = n) l ->
  l !! r = Some x ->
  take n (drop (r * n) (flat_map f l)) = f x.
Proof.
  intros Hlen. revert r.
  induction Hlen as [|y l Hy _ IH]; intros r Hr; [done|].
  destruct r as [|r]; simpl in *.
  - injection Hr as ->. by apply take_app_length'.
  - rewrite drop_app_add' by done. by apply IH.
Qed.

Lemma flat_map_lookup {A B} (f : A -> list B) (n : nat) (l : list A) r x k :
  Forall (fun y => length (f y) = n) l ->
  l !! r = Some x -> (k < n)%nat ->
  flat_map f l !! (r * n + k)%nat = f x !! k.
Proof.
  intros Hlen Hr Hk.
  rewrite <- (flat_map_chunk f n l r x Hlen Hr).
  rewrite lookup_take, decide_True by done.
  by rewrite lookup_drop.
Qed.

Lemma flat_map_length {A B} (f : A -> list B) (n : nat) (l : list A) :
  Forall (fun y => length (f y) = n) l ->
  length (flat_map f l) = (length l * n)%nat.
Proof.
  induction 1 as [|y l Hy _ IH]; [done|].
  simpl. rewrite length_app, Hy, IH. done.
Qed.

Lemma numel_snoc sh v : numel (sh ++ [v]) = (numel sh * v)%nat.
Proof.
  induction sh as [|d sh IH]; simpl; [lia|]. rewrite IH. lia.
Qed.

Lemma offset_snoc sh ix v k o :
  offset sh ix = Some o -> (k < v)%nat ->
  offset (sh ++ [v]) (ix ++ [k]) = Some (o * v + k)%nat.
Proof.
  revert ix o. induction sh as [|d sh IH]; intros [|i ix] o; simpl; try done.
  - intros [= <-] Hk. rewrite decide_True by done. simpl. f_equal. lia.
  - destruct (decide (i < d)%nat); [|done].
    destruct (offset sh ix) as [o'|] eqn:Ho; [|done]. simpl.
    intros [= <-] Hk. rewrite (IH ix o' Ho Hk). simpl.
    rewrite numel_snoc. f_equal. lia.
Qed.

Lemma offset_snoc_inv sh ix v k o :
  offset (sh ++ [v]) (ix ++ [k]) = Some o -> (k < v)%nat.
Proof.
  revert ix o. induction sh as [|d sh IH]; intros [|i ix] o; simpl.
  - destruct (decide (k < v)%nat); done.
  - destruct (decide (i < v)%nat); [|done]. by destruct ix.
  - destruct (decide (k < d)%nat); [|done]. by destruct sh.
  - destruct (decide (i < d)%nat); [|done].
    destruct (offset (sh ++ [v]) (ix ++ [k])) as [o'|] eqn:Ho; [|done].
    intros _. by eapply IH.
Qed.

Lemma offset_lt sh ix o : offset sh ix = Some o -> (o < numel sh)%nat.
Proof.
  revert ix o. induction sh as [|d sh IH]; intros [|i ix] o; simpl; try done.
  - intros [= <-]. lia.
  - destruct (decide (i < d)%nat); [|done].
    destruct (offset sh ix) as [o'|] eqn:Ho; [|done]. simpl.
    intros [= <-]. apply IH in Ho. nia.
Qed.

(** ** One-hot encoding *)

Lemma unit_row_length n i : length (unit_row n i) = n.
Proof. unfold unit_row. by rewrite length_map, length_seq. Qed.

Lemma unit_row_lookup n i k :
  (k < n)%nat -> unit_row n i !! k = Some (if decide (i = k) then 1 else 0).
Proof.
  intros Hk. unfold unit_row.
  change (map ?f ?l) with (f <$> l).
  rewrite list_lookup_fmap. by rewrite lookup_seq_lt.
Qed.

Lemma eye_row n r :
  (r < n)%nat ->
  take (numel [n]) (drop (r * numel [n]) (data (eye n))) = unit_row n r.
Proof.
  intros Hr. simpl. rewrite Nat.mul_1_r.
  apply flat_map_chunk; [apply Forall_forall; intros; apply unit_row_length|].
  by apply lookup_seq_lt.
Qed.

Lemma onehot_row_length V i : length (onehot_row V i) = V.
Proof. unfold onehot_row. by rewrite length_map, unit_row_length. Qed.

Lemma onehot_rows_length V (l : list Z) :
  Forall (fun i => length (onehot_row V i) = V) l.
Proof. apply Forall_forall. intros. apply onehot_row_length. Qed.

Lemma onehot_row_lookup V i k :
  0 ≤ i -> (k < V)%nat ->
  onehot_row V i !! k = Some (if decide (Z.of_nat k = i) then 1%Q else 0%Q).
Proof.
  intros Hi Hk. unfold onehot_row.
  change (map ?f ?l) with (f <$> l).
  rewrite list_lookup_fmap, unit_row_lookup by done. simpl.
  destruct (decide (Z.to_nat i = k)), (decide (Z.of_nat k = i)); try done; lia.
Qed.

Lemma onehot_ok (idx : tensor Z) (V : nat) :
  Forall (fun i => 0 ≤ i < Z.of_nat V) (data idx) ->
  onehot idx V
  = Ok (Tensor (shape idx ++ [V]) (flat_map (onehot_row V) (data idx))).
Proof.
  intros Hidx. unfold onehot, tensor_index.
  cbn [shape eye].
  rewrite (mapM_Ok _ (fun i => unit_row V (Z.to_nat i))).
  - simpl. unfold to_float. simpl. do 2 f_equal.
    rewrite concat_map, flat_map_concat_map. f_equal.
    by rewrite map_map.
  - eapply Forall_impl; [exact Hidx|]. intros i Hi. simpl in Hi |- *.
    unfold norm_index. rewrite decide_True by done. simpl.
    f_equal. rewrite <- (eye_row V (Z.to_nat i)) by lia. done.
Qed.

(** The entries of a one-hot tensor, read by multi-index. *)
Lemma onehot_positions (idx : tensor Z) (V : nat) :
  Forall (fun i => 0 ≤ i < Z.of_nat V) (data idx) ->
  exists out,
    onehot idx V = Ok out
    ∧ shape out = shape idx ++ [V]
    ∧ (wf_tensor idx -> wf_tensor out)
    ∧ forall ix i, tget idx ix = Some i ->
        (forall k, (k < V)%nat ->
           tget out (ix ++ [k])
           = Some (if decide (Z.of_nat k = i) then 1%Q else 0%Q))
        ∧ tget out (ix ++ [Z.to_nat i]) = Some 1%Q
        ∧ (forall k, tget out (ix ++ [k]) = Some 1%Q -> k = Z.to_nat i).
Proof.
  intros Hidx. eexists. split; [by apply onehot_ok|].
  split; [done|]. split.
  { unfold wf_tensor. simpl. intros Hwf.
    rewrite (flat_map_length _ V) by apply onehot_rows_length.
    rewrite numel_snoc. by rewrite Hwf. }
  intros ix i Hi. unfold tget in Hi.
  destruct (offset (shape idx) ix) as [o|] eqn:Ho; [|done]. simpl in Hi.
  assert (Hr : 0 ≤ i < Z.of_nat V).
  { eapply Forall_forall in Hidx; [exact Hidx|].
    by eapply list_elem_of_lookup_2. }
  assert (Hk : forall k, (k < V)%nat ->
             tget (Tensor (shape idx ++ [V]) (flat_map (onehot_row V) (data idx)))
               (ix ++ [k])
             = Some (if decide (Z.of_nat k = i) then 1%Q else 0%Q)).
  { intros k Hk. unfold tget. simpl.
    rewrite (offset_snoc _ _ _ _ o) by done. simpl.
    rewrite (flat_map_lookup _ V _ _ i) by (done || apply onehot_rows_length).
    apply onehot_row_lookup; [lia|done]. }
  split; [exact Hk|]. split.
  - rewrite Hk by lia. by rewrite decide_True by lia.
  - intros k Hone.
    assert (Hlt : (k < V)%nat).
    { unfold tget in Hone. simpl in Hone.
      destruct (offset (shape idx ++ [V]) (ix ++ [k])) as [o'|] eqn:Ho';
        [|done].
      by eapply offset_snoc_inv. }
    rewrite Hk in Hone by done.
    destruct (decide (Z.of_nat k = i)); [lia|discriminate].
Qed.

(** C4. For an integer tensor whose entries are token indices in [0, V),
    [onehot] returns a tensor with the shape of the input followed by one
    dimension of size [V]; at every position of the input, the coordinate
    equal to the token index there is 1, every other coordinate is 0, and so
    exactly one coordinate is 1.  The result is a function of the two
    arguments only. *)
Theorem onehot_unit_vectors (idx : tensor Z) (V : nat) :
  Forall (fun i => 0 ≤ i < Z.of_nat V) (data idx) ->
  exists out,
    onehot idx V = Ok out
    ∧ shape out = shape idx ++ [V]
    ∧ (wf_tensor idx -> wf_tensor out)
    ∧ forall ix i, tget idx ix = Some i ->
        (forall k, (k < V)%nat ->
           tget out (ix ++ [k])
           = Some (if decide (Z.of_nat k = i) then 1%Q else 0%Q))
        ∧ tget out (ix ++ [Z.to_nat i]) = Some 1%Q
        ∧ (forall k, tget out (ix ++ [k]) = Some 1%Q -> k = Z.to_nat i).
Proof. apply onehot_positions. Qed.

Lemma onehot_unit_vectors_witness :
  Forall (fun i => 0 ≤ i < Z.of_nat 3) (data (Tensor [2%nat; 2%nat] [0; 2; 1; 1]))
  ∧ exists out,
      onehot (Tensor [2%nat; 2%nat] [0; 2; 1; 1]) 3 = Ok out
      ∧ shape out = [2; 2; 3]%nat
      ∧ tget out [0; 1; 2]%nat = Some 1%Q.
Proof.
  assert (Hr : Forall (fun i => 0 ≤ i < Z.of_nat 3)
                 (data (Tensor [2%nat; 2%nat] [0; 2; 1; 1]))).
  { simpl. repeat constructor; lia. }
  split; [exact Hr|].
  destruct (onehot_unit_vectors _ 3%nat Hr) as (out & Hok & Hsh & _ & Hpos).
  exists out. split; [exact Hok|]. split; [exact Hsh|].
  destruct (Hpos [0; 1]%nat 2 eq_refl) as (_ & Hone & _). exact Hone.
Defined.

(** ** Slices of the second dimension *)

Lemma slice_chunk_length {A} (d : list A) (b w inner lo hi r : nat) :
  length d = (b * (w * inner))%nat -> (hi ≤ w)%nat -> (r < b)%nat ->
  length (take ((hi - lo) * inner) (drop ((r * w + lo) * inner) d))
  = ((hi - lo) * inner)%nat.
Proof.
  intros Hd Hhi Hr. rewrite length_take, length_drop, Hd.
  destruct (decide (hi ≤ lo)%nat) as [Hle|Hlt].
  - replace (hi - lo)%nat with 0%nat by lia. lia.
  - assert (((r * w + lo) * inner + (hi - lo) * inner ≤ b * (w * inner))%nat);
      [|lia].
    replace ((r * w + lo) * inner + (hi - lo) * inner)%nat
      with ((r * w + hi) * inner)%nat by nia.
    replace (b * (w * inner))%nat with ((b * w) * inner)%nat by lia.
    apply Nat.mul_le_mono_r. nia.
Qed.

Lemma slice_dim1_spec {A} (t : tensor A) (b w : nat) (rest : list nat)
    (start stop : option Z) :
  shape t = b :: w :: rest -> wf_tensor t ->
  let lo := slice_lo w start in
  let hi := slice_hi w stop in
  exists t',
    slice_dim1 t start stop = Ok t'
    ∧ shape t' = b :: (hi - lo)%nat :: rest
    ∧ wf_tensor t'
    ∧ forall r j ix, (r < b)%nat -> (j < hi - lo)%nat ->
        tget t' (r :: j :: ix) = tget t (r :: (lo + j)%nat :: ix).
Proof.
  intros Hsh Hwf lo hi.
  assert (Hhi : (hi ≤ w)%nat) by apply (slice_bounds_le w start stop).
  unfold wf_tensor in Hwf. rewrite Hsh in Hwf. simpl in Hwf.
  set (inner := numel rest) in *.
  assert (Hchunks : Forall
            (fun r => length (take ((hi - lo) * inner)
                                (drop ((r * w + lo) * inner) (data t)))
                      = ((hi - lo) * inner)%nat) (seq 0 b)).
  { apply Forall_forall. intros r Hr%list_elem_of_lookup.
    destruct Hr as [i Hi]. apply lookup_seq in Hi as [-> Hi].
    by apply (slice_chunk_length _ b). }
  unfold slice_dim1. rewrite Hsh. fold lo hi inner.
  eexists. split; [done|]. split; [done|]. split.
  { unfold wf_tensor. simpl. fold inner.
    rewrite (flat_map_length _ _ _ Hchunks), length_seq. done. }
  intros r j ix Hr Hj. unfold tget. simpl. rewrite Hsh. simpl. fold inner.
  rewrite !decide_True by lia.
  destruct (offset rest ix) as [o|] eqn:Ho; [|done]. simpl.
  apply offset_lt in Ho. fold inner in Ho.
  rewrite (flat_map_lookup _ _ _ r r (j * inner + o) Hchunks);
    [|by apply lookup_seq_lt|nia].
  rewrite lookup_take, decide_True by nia.
  rewrite lookup_drop. f_equal. lia.
Qed.

Lemma tget_rank2 {A} (t : tensor A) (B W b j : nat) :
  shape t = [B; W] -> wf_tensor t -> (b < B)%nat -> (j < W)%nat ->
  exists x, tget t [b; j] = Some x.
Proof.
  intros Hsh Hwf Hb Hj. unfold tget. rewrite Hsh. simpl.
  rewrite !decide_True by done. simpl.
  apply lookup_lt_is_Some. unfold wf_tensor in Hwf.
  rewrite Hwf, Hsh. simpl. nia.
Qed.

(** C5. For a batch of [B] windows of length [W ≥ 1] over valid tokens, the
    trainer's input is the one-hot batch without the last position of every
    window and its target is the token batch without the first position:
    both have [W - 1] time steps, and at every step [t] the input encodes
    token [t] of the window while the target is token [t + 1], the one that
    follows it. *)
Theorem batch_teacher_forcing (V : nat) (idx : tensor Z) (B W : nat) :
  shape idx = [B; W] -> wf_tensor idx -> (1 ≤ W)%nat ->
  Forall (fun i => 0 ≤ i < Z.of_nat V) (data idx) ->
  exists inputs targets,
    batch_inputs_targets V idx = Ok (inputs, targets)
    ∧ shape inputs = [B; (W - 1)%nat; V]
    ∧ shape targets = [B; (W - 1)%nat]
    ∧ forall b t, (b < B)%nat -> (t < W - 1)%nat ->
        exists cur nxt,
          tget idx [b; t] = Some cur
          ∧ tget idx [b; (t + 1)%nat] = Some nxt
          ∧ tget targets [b; t] = Some nxt
          ∧ forall k, (k < V)%nat ->
              tget inputs [b; t; k]
              = Some (if decide (Z.of_nat k = cur) then 1%Q else 0%Q).
Proof.
  intros Hsh Hwf HW Hidx.
  destruct (onehot_positions idx V Hidx) as (oh & Hoh & Hohsh & Hohwf & Hpos).
  rewrite Hsh in Hohsh. simpl in Hohsh. specialize (Hohwf Hwf).
  destruct (slice_dim1_spec oh B W [V] None (Some (-1)) Hohsh Hohwf)
    as (inputs & Hin & Hinsh & _ & Hinget).
  destruct (slice_dim1_spec idx B W [] (Some 1) None Hsh Hwf)
    as (targets & Htg & Htgsh & _ & Htgget).
  assert (Hlo0 : slice_lo W None = 0%nat) by done.
  assert (Hhi0 : slice_hi W (Some (-1)) = (W - 1)%nat).
  { unfold slice_hi, slice_bound. rewrite decide_True by lia. lia. }
  assert (Hlo1 : slice_lo W (Some 1) = 1%nat).
  { unfold slice_lo, slice_bound. rewrite decide_False by lia. lia. }
  assert (Hhi1 : slice_hi W None = W).
  { unfold slice_hi, slice_bound. lia. }
  rewrite Hlo0, Hhi0, Nat.sub_0_r in Hinsh, Hinget.
  rewrite Hlo1, Hhi1 in Htgsh, Htgget.
  exists inputs, targets. split.
  { unfold batch_inputs_targets. rewrite Hoh. simpl. rewrite Hin. simpl.
    rewrite Htg. done. }
  split; [done|]. split; [done|].
  intros b t Hb Ht.
  destruct (tget_rank2 idx B W b t Hsh Hwf) as [cur Hcur]; [lia..|].
  destruct (tget_rank2 idx B W b (t + 1) Hsh Hwf) as [nxt Hnxt]; [lia..|].
  exists cur, nxt. split; [done|]. split; [done|]. split.
  - rewrite Htgget by lia. by replace (1 + t)%nat with (t + 1)%nat by lia.
  - intros k Hk. rewrite Hinget by lia. simpl.
    destruct (Hpos [b; t] cur Hcur) as (Hall & _). by apply Hall.
Qed.

Lemma batch_teacher_forcing_witness :
  let idx := Tensor [2%nat; 3%nat] [0; 1; 2; 2; 1; 0] in
  (shape idx = [2; 3]%nat ∧ wf_tensor idx ∧ (1 ≤ 3)%nat
   ∧ Forall (fun i => 0 ≤ i < Z.of_nat 3) (data idx))
  ∧ exists inputs targets,
      batch_inputs_targets 3 idx = Ok (inputs, targets)
      ∧ shape inputs = [2; 2; 3]%nat
      ∧ shape targets = [2; 2]%nat.
Proof.
  intros idx.
  assert (Hr : Forall (fun i => 0 ≤ i < Z.of_nat 3) (data idx)).
  { simpl. repeat constructor; lia. }
  assert (Hw : (1 ≤ 3)%nat) by lia.
  split; [by repeat split|].
  destruct (batch_teacher_forcing 3 idx 2 3 eq_refl eq_refl Hw Hr)
    as (inputs & targets & Hok & Hi & Ht & _).
  by exists inputs, targets.
Defined.

(** ** Calls of the network *)

Section Forward.

Context `{TorchNet}.

Lemma bind_lift {A B} (r : outcome A) (k : A -> M B) (w : world) :
  (lift r ≫= k) w = match r with Ok a => k a w | Raise e => (Raise e, w) end.
Proof. by destruct r. Qed.

Lemma forward_unfold x z w :
  forward x z w =
  match initial_state x z w with
  | None => (Raise AttributeError, w)
  | Some s0 =>
      match lstm_core x s0 with
      | Raise e => (Raise e, w)
      | Ok (out, h) => (dropout out ≫= fun o => mret (linear o)) (store h w)
      end
  end.
Proof.
  unfold forward, initial_state, store.
  destruct z; simpl.
  - unfold mbind, M_bind, lift, lstm. simpl.
    destruct (lstm_core x (zero_state x)) as [[out h]|e]; done.
  - unfold mbind, M_bind, get_hiddens, lift, lstm. simpl.
    destruct (hiddens (net w)) as [s|]; [|done].
    destruct (lstm_core x s) as [[out h]|e]; done.
Qed.

Lemma dropout_linear_ok out w :
  exists o w',
    (dropout out ≫= fun o => mret (linear o)) w = (Ok o, w')
    ∧ net w' = net w.
Proof.
  unfold mbind, M_bind, dropout, mret, M_ret.
  destruct (training (net w)).
  - destruct (dropout_train (rng w) out) as [y g]. by eexists _, _.
  - by eexists _, _.
Qed.

Lemma forward_eval x z w :
  training (net w) = false ->
  forward x z w =
  match initial_state x z w with
  | None => (Raise AttributeError, w)
  | Some s0 =>
      match lstm_core x s0 with
      | Raise e => (Raise e, w)
      | Ok (out, h) => (Ok (linear out), store h w)
      end
  end.
Proof.
  intros Hev. rewrite forward_unfold.
  destruct (initial_state x z w) as [s0|]; [|done].
  destruct (lstm_core x s0) as [[out h]|e]; [|done].
  unfold mbind, M_bind, dropout, store. simpl. by rewrite Hev.
Qed.

(** A call that raises leaves the instance as it was; a call that returns
    has stored the state the recurrence ended in. *)
Lemma forward_cases x z w :
  (exists e, forward x z w = (Raise e, w))
  ∨ (exists o w' s0 out h,
       forward x z w = (Ok o, w')
       ∧ initial_state x z w = Some s0
       ∧ lstm_core x s0 = Ok (out, h)
       ∧ net w' = net (store h w)).
Proof.
  rewrite forward_unfold.
  destruct (initial_state x z w) as [s0|]; [|left; by eexists].
  destruct (lstm_core x s0) as [[out h]|e] eqn:Hl; [|left; by eexists].
  right. destruct (dropout_linear_ok out (store h w)) as (o & w' & Hd & Hn).
  exists o, w', s0, out, h. by rewrite Hd.
Qed.

Lemma zero_state_zero x :
  Forall (fun v => v = fzero) (data (zero_state x).1)
  ∧ Forall (fun v => v = fzero) (data (zero_state x).2).
Proof.
  unfold zero_state, zeros. simpl.
  split; apply Forall_forall; intros v Hv;
    by apply elem_of_replicate in Hv as [-> _].
Qed.

Lemma run_calls_hiddens calls w :
  hiddens (net (run_calls calls w).2) = None
  <-> hiddens (net w) = None ∧ Forall is_raise (run_calls calls w).1.
Proof.
  revert w. induction calls as [|[x z] calls IH]; intros w; simpl.
  - split; [by split|tauto].
  - destruct (forward_cases x z w) as [(e & He)|(o & w' & s0 & out & h & Ho & _ & _ & Hn)].
    + rewrite He. specialize (IH w).
      destruct (run_calls calls w) as [rs w2]. simpl in *.
      rewrite IH, Forall_cons. simpl. tauto.
    + rewrite Ho. specialize (IH w').
      destruct (run_calls calls w') as [rs w2]. simpl in *.
      rewrite IH, Forall_cons, Hn. simpl. split; [|tauto].
      intros [? _]. done.
Qed.

End Forward.

(** C6. Every [forward] call, fresh or continued, whose recurrence runs
    returns and leaves in the instance the state the recurrence ended in,
    in place of whatever was stored before.  A fresh call starts the
    recurrence from the all-zero state, whatever is stored; a continued call
    starts it from the stored state, which after a preceding call is the
    state that call ended in.  Conversely a call that returns has run the
    recurrence from that initial state and stored its final state. *)
Theorem forward_stores_final_state `{TorchNet} :
  (forall x z w o w',
     forward x z w = (Ok o, w') ->
     exists s0 out h,
       lstm_core x s0 = Ok (out, h)
       ∧ hiddens (net w') = Some h
       ∧ (z = true ->
          s0 = zero_state x
          ∧ Forall (fun v => v = fzero) (data s0.1)
          ∧ Forall (fun v => v = fzero) (data s0.2))
       ∧ (z = false -> hiddens (net w) = Some s0))
  ∧ (forall x1 z1 w o1 w1 x2 o2 w2,
       forward x1 z1 w = (Ok o1, w1) ->
       forward x2 false w1 = (Ok o2, w2) ->
       exists s0 out1 h1 out2 h2,
         lstm_core x1 s0 = Ok (out1, h1)
         ∧ hiddens (net w1) = Some h1
         ∧ lstm_core x2 h1 = Ok (out2, h2)
         ∧ hiddens (net w2) = Some h2)
  ∧ (forall x w out h,
       lstm_core x (zero_state x) = Ok (out, h) ->
       exists o w',
         forward x true w = (Ok o, w')
         ∧ hiddens (net w') = Some h
         ∧ (training (net w) = false -> o = linear out))
  ∧ (forall x w s out h,
       hiddens (net w) = Some s ->
       lstm_core x s = Ok (out, h) ->
       exists o w',
         forward x false w = (Ok o, w')
         ∧ hiddens (net w') = Some h
         ∧ (training (net w) = false -> o = linear out)).
Proof.
  assert (Hone : forall x z w o w',
     forward x z w = (Ok o, w') ->
     exists s0 out h,
       lstm_core x s0 = Ok (out, h)
       ∧ hiddens (net w') = Some h
       ∧ (z = true ->
          s0 = zero_state x
          ∧ Forall (fun v => v = fzero) (data s0.1)
          ∧ Forall (fun v => v = fzero) (data s0.2))
       ∧ (z = false -> hiddens (net w) = Some s0)).
  { intros x z w o w' Hf.
    destruct (forward_cases x z w)
      as [(e & He)|(o' & w'' & s0 & out & h & Ho & Hi & Hl & Hn)];
      [congruence|].
    rewrite Ho in Hf. injection Hf as -> ->.
    exists s0, out, h. split; [done|]. split; [by rewrite Hn|].
    unfold initial_state in Hi. split; intros ->.
    - injection Hi as <-. split; [done|]. apply zero_state_zero.
    - done. }
  assert (Hrun : forall x z w s0 out h,
     initial_state x z w = Some s0 ->
     lstm_core x s0 = Ok (out, h) ->
     exists o w',
       forward x z w = (Ok o, w')
       ∧ hiddens (net w') = Some h
       ∧ (training (net w) = false -> o = linear out)).
  { intros x z w s0 out h Hi Hl.
    destruct (dropout_linear_ok out (store h w)) as (o & w' & Hd & Hn).
    exists o, w'. split; [by rewrite forward_unfold, Hi, Hl|].
    split; [by rewrite Hn|].
    intros Hev. unfold mbind, M_bind, dropout, store in Hd. simpl in Hd.
    rewrite Hev in Hd. simpl in Hd. by injection Hd as <- _. }
  split; [exact Hone|]. split.
  - intros x1 z1 w o1 w1 x2 o2 w2 H1 H2.
    destruct (Hone _ _ _ _ _ H1) as (s0 & out1 & h1 & Hl1 & Hs1 & _).
    destruct (Hone _ _ _ _ _ H2) as (s1 & out2 & h2 & Hl2 & Hs2 & _ & Hc).
    specialize (Hc eq_refl). rewrite Hs1 in Hc. injection Hc as <-.
    by exists s0, out1, h1, out2, h2.
  - split.
    + intros x w out h Hl. by apply (Hrun x true w (zero_state x)).
    + intros x w s out h Hs Hl. by apply (Hrun x false w s).
Qed.

(** C10. On an instance on which no [forward] call has returned, a continued
    call raises [AttributeError] and changes nothing: the attribute
    [hiddens] is absent after creation and after any sequence of calls that
    all raised, and it is present as soon as one call has returned, from
    when on a continued call reads it. *)
Theorem continued_mode_needs_completed_call `{TorchNet} :
  (forall g x,
     forward x false (fresh_world g) = (Raise AttributeError, fresh_world g))
  ∧ (forall calls g,
       let rs := (run_calls calls (fresh_world g)).1 in
       let w := (run_calls calls (fresh_world g)).2 in
       (hiddens (net w) = None <-> Forall is_raise rs)
       ∧ (Forall is_raise rs ->
          forall x, forward x false w = (Raise AttributeError, w))
       ∧ (¬ Forall is_raise rs ->
          exists s, hiddens (net w) = Some s
            ∧ forall x out h, lstm_core x s = Ok (out, h) ->
                exists o w', forward x false w = (Ok o, w')
                  ∧ hiddens (net w') = Some h)).
Proof.
  split; [done|].
  intros calls g rs w.
  assert (Hinv : hiddens (net w) = None <-> Forall is_raise rs).
  { unfold w, rs. rewrite run_calls_hiddens. simpl. tauto. }
  split; [exact Hinv|]. split.
  - intros Hrs x. apply Hinv in Hrs.
    rewrite forward_unfold. unfold initial_state. by rewrite Hrs.
  - intros Hrs. destruct (hiddens (net w)) as [s|] eqn:Hs; [|tauto].
    exists s. split; [done|]. intros x out h Hl.
    destruct (forward_cases x false w)
      as [(e & He)|(o & w' & s0 & out' & h' & Ho & Hi & Hl' & Hn)].
    + rewrite forward_unfold in He. unfold initial_state in He.
      rewrite Hs, Hl in He.
      destruct (dropout_linear_ok out (store h w)) as (o & w' & Hd & _).
      rewrite Hd in He. done.
    + unfold initial_state in Hi. rewrite Hs in Hi. injection Hi as <-.
      rewrite Hl in Hl'. injection Hl' as <- <-.
      exists o, w'. by rewrite Hn.
Qed.

(** ** Generation *)

Section Generation.

Context `{TorchNet}.

Lemma bind_run {A B} (m : M A) (k : A -> M B) (w : world) :
  (m ≫= k) w = match m w with
               | (Ok a, w') => k a w'
               | (Raise e, w') => (Raise e, w')
               end.
Proof. done. Qed.

Lemma gen_loop_S cs n idx output z w :
  gen_loop cs (S n) idx output z w =
  match onehot idx (input_size cs) with
  | Raise e => (Raise e, w)
  | Ok inputs =>
      match forward (unsqueeze0 inputs) z w with
      | (Raise e, w1) => (Raise e, w1)
      | (Ok outputs, w1) =>
          match torch_max2 outputs with
          | Raise e => (Raise e, w1)
          | Ok (_, predicted) =>
              match item2 predicted 0 (-1) with
              | Raise e => (Raise e, w1)
              | Ok token =>
                  match decode cs token with
                  | Raise e => (Raise e, w1)
                  | Ok ch =>
                      gen_loop cs n (tensor1 [token]) (output ++ [ch]) false w1
                  end
              end
          end
      end
  end.
Proof.
  simpl. rewrite bind_lift.
  destruct (onehot idx (input_size cs)) as [inputs|e]; [|done].
  rewrite bind_run.
  destruct (forward (unsqueeze0 inputs) z w) as [[outputs|e] w1]; [|done].
  rewrite bind_lift.
  destruct (torch_max2 outputs) as [[vals predicted]|e]; [|done].
  rewrite bind_lift.
  destruct (item2 predicted 0 (-1)) as [token|e]; [|done].
  rewrite bind_lift.
  by destruct (decode cs token).
Qed.

Lemma gen_loop_deterministic cs n idx output z w1 w2 :
  training (net w1) = false -> training (net w2) = false ->
  z = true ∨ hiddens (net w1) = hiddens (net w2) ->
  (gen_loop cs n idx output z w1).1 = (gen_loop cs n idx output z w2).1.
Proof.
  revert idx output z w1 w2.
  induction n as [|n IH]; intros idx output z w1 w2 Ht1 Ht2 Hz; [done|].
  rewrite !gen_loop_S.
  destruct (onehot idx (input_size cs)) as [inputs|e]; [|done].
  rewrite !forward_eval by done.
  assert (Hi : initial_state (unsqueeze0 inputs) z w1
               = initial_state (unsqueeze0 inputs) z w2).
  { unfold initial_state. destruct Hz as [->|Hh]; [done|].
    by destruct z. }
  rewrite Hi.
  destruct (initial_state (unsqueeze0 inputs) z w2) as [s0|]; [|done].
  destruct (lstm_core (unsqueeze0 inputs) s0) as [[out h]|e]; [|done].
  destruct (torch_max2 (linear out)) as [[vals predicted]|e]; [|done].
  destruct (item2 predicted 0 (-1)) as [token|e]; [|done].
  destruct (decode cs token) as [ch|e]; [|done].
  apply IH; [done..|]. by right.
Qed.

End Generation.

(** C7. With the weights fixed, the output of a generation run, a string or
    the exception it ends with, is determined by the priming string and the
    generation length alone: it is the same from any two states of the
    interpreter, whatever state an earlier run or training left in the
    instance, whatever mode the instance was in, and whatever the random
    generator holds. *)
Theorem generation_deterministic `{TorchNet} (lower : str -> str)
    (cs pretext : str) (gen_length : Z) (w1 w2 : world) :
  (generate lower cs pretext gen_length w1).1
  = (generate lower cs pretext gen_length w2).1.
Proof.
  unfold generate. rewrite !bind_run. simpl.
  apply gen_loop_deterministic; simpl; auto.
Qed.

(** ** Greedy selection *)

Section Greedy.

Context `{TorchNet}.

Lemma argmax_from_range best besti i l :
  0 ≤ besti < i ->
  0 ≤ (argmax_from best besti i l).2 < i + Z.of_nat (length l).
Proof.
  revert best besti i. induction l as [|x l IH]; intros best besti i Hb.
  - simpl. lia.
  - simpl argmax_from. destruct (fgt x best).
    + specialize (IH x i (i + 1)). simpl length. lia.
    + specialize (IH best besti (i + 1)). simpl length. lia.
Qed.

Lemma argmax_row_range l p :
  argmax_row l = Some p -> 0 ≤ p.2 < Z.of_nat (length l).
Proof.
  destruct l as [|x l]; [done|]. intros [= <-].
  pose proof (argmax_from_range x 0 1 l). simpl length. lia.
Qed.

Lemma argmax_row_some l : l ≠ [] -> argmax_row l = Some (default (fzero, 0) (argmax_row l)).
Proof. by destruct l. Qed.

Lemma row_length (d : list F) (n v r : nat) :
  length d = (n * v)%nat -> (r < n)%nat ->
  length (take v (drop (r * v) d)) = v.
Proof.
  intros Hd Hr. rewrite length_take, length_drop, Hd. nia.
Qed.

Lemma torch_max2_ok t b l v :
  shape t = [b; l; v] -> wf_tensor t -> (0 < v)%nat ->
  let rows := map (row_argmax v (data t)) (seq 0 (b * l)) in
  torch_max2 t = Ok (Tensor [b; l] (rows.*1), Tensor [b; l] (rows.*2)).
Proof.
  intros Hsh Hwf Hv rows. unfold torch_max2. rewrite Hsh.
  rewrite (mapM_Ok _ (row_argmax v (data t))); [done|].
  apply Forall_forall. intros r Hr%list_elem_of_lookup.
  destruct Hr as [i Hi]. apply lookup_seq in Hi as [-> Hi]. simpl.
  unfold row_argmax. rewrite argmax_row_some; [done|].
  intros Hnil. apply (f_equal length) in Hnil.
  rewrite (row_length _ (b * l)) in Hnil; [simpl in Hnil; lia| |done].
  unfold wf_tensor in Hwf. rewrite Hwf, Hsh. simpl. lia.
Qed.

Lemma torch_max2_empty t b v :
  shape t = [b; 0%nat; v] ->
  exists vals, torch_max2 t = Ok (vals, Tensor [b; 0%nat] []).
Proof.
  intros Hsh. unfold torch_max2. rewrite Hsh, Nat.mul_0_r. simpl.
  by eexists.
Qed.

Lemma norm_index_last (l : nat) :
  (0 < l)%nat -> norm_index l (-1) = Ok (l - 1)%nat.
Proof.
  intros Hl. unfold norm_index.
  rewrite decide_False by lia. rewrite decide_True by lia.
  f_equal. lia.
Qed.

(** The token read by [predicted[0, -1].item()]. *)
Lemma predicted_last t l v :
  shape t = [1%nat; l; v] -> wf_tensor t -> (0 < v)%nat -> (0 < l)%nat ->
  exists vals predicted token,
    torch_max2 t = Ok (vals, predicted)
    ∧ item2 predicted 0 (-1) = Ok token
    ∧ last_step_argmax t = Some token
    ∧ 0 ≤ token < Z.of_nat v.
Proof.
  intros Hsh Hwf Hv Hl.
  pose proof (torch_max2_ok t 1 l v Hsh Hwf Hv) as Hmax. simpl in Hmax.
  rewrite Nat.add_0_r in Hmax.
  assert (Hlen : length (data t) = (l * v)%nat).
  { unfold wf_tensor in Hwf. rewrite Hwf, Hsh. simpl. lia. }
  assert (Hrow : take v (drop ((l - 1) * v) (data t)) ≠ []).
  { intros Hnil. apply (f_equal length) in Hnil.
    rewrite (row_length _ l) in Hnil; [simpl in Hnil; lia|done|lia]. }
  destruct (argmax_row (take v (drop ((l - 1) * v) (data t)))) as [p|] eqn:Hp;
    [|by rewrite argmax_row_some in Hp].
  eexists _, _, p.2. split; [exact Hmax|]. split.
  - unfold item2. cbn [shape data].
    change (norm_index 1 0) with (Ok 0%nat).
    rewrite norm_index_last by done. cbn [mbind outcome_bind].
    rewrite Nat.mul_0_l, Nat.add_0_l.
    change (map snd ?x) with (snd <$> x).
    change (map (row_argmax v (data t)) ?x)
      with (row_argmax v (data t) <$> x).
    rewrite !list_lookup_fmap, lookup_seq_lt by lia. simpl.
    unfold row_argmax. by rewrite Hp.
  - split.
    + unfold last_step_argmax. rewrite Hsh, Hp. done.
    + apply argmax_row_range in Hp.
      rewrite (row_length _ l) in Hp; [done|done|lia].
Qed.

Lemma decode_in_range cs token :
  0 ≤ token < Z.of_nat (length cs) -> exists ch, decode cs token = Ok ch.
Proof.
  intros Ht. unfold decode, dict_getitem.
  rewrite int_to_char_lookup, decide_True by lia.
  destruct (lookup_lt_is_Some_2 cs (Z.to_nat token)) as [ch Hch]; [lia|].
  exists ch. by rewrite Hch.
Qed.

Lemma zero_state_ok x l v : shape x = [1%nat; l; v] -> state_ok 1 (zero_state x).
Proof. intros Hsh. unfold state_ok, zero_state. by rewrite Hsh. Qed.

End Greedy.

(** The constant network has the shapes of the real layers. *)
Lemma const_net_contract (V k : nat) : @NetContract (const_net V k) V.
Proof.
  split.
  - intros [sh d] s out s' b l v Hl Hsh. simpl in *. subst sh.
    by injection Hl as <- <-.
  - intros [sh d] s b l Hsh _ _ Hs. simpl in *. subst sh. by eexists _, _.
  - intros [sh d] b l Hsh. simpl in *. subst sh. split; [done|].
    unfold wf_tensor. simpl.
    rewrite (flat_map_length _ V).
    + rewrite length_seq. lia.
    + apply Forall_forall. intros. by rewrite length_map, length_seq.
Qed.

Section GeneratorRun.

Context `{TorchNet}.
Variable cs : str.
Context {HC : NetContract (length cs)}.

Lemma gen_step_ok idx z w :
  ready (length cs) idx z w ->
  exists inputs x outputs w1 vals predicted token ch,
    onehot idx (length cs) = Ok inputs
    ∧ forward (unsqueeze0 inputs) z w = (Ok outputs, w1)
    ∧ outputs = linear x
    ∧ (exists l, shape x = [1%nat; l; hidden_size] ∧ (0 < l)%nat)
    ∧ torch_max2 outputs = Ok (vals, predicted)
    ∧ item2 predicted 0 (-1) = Ok token
    ∧ last_step_argmax outputs = Some token
    ∧ decode cs token = Ok ch
    ∧ ready (length cs) (tensor1 [token]) false w1.
Proof.
  intros (Hev & (l & Hl & Hsh & Hlen) & Hr & Hz).
  assert (HV : (0 < length cs)%nat).
  { destruct (data idx) as [|i d]; [simpl in Hlen; lia|].
    apply Forall_cons in Hr as [Hi _]. lia. }
  pose proof (onehot_ok idx (length cs) Hr) as Hoh.
  set (inputs := Tensor (shape idx ++ [length cs])
                   (flat_map (onehot_row (length cs)) (data idx))) in *.
  assert (Hxsh : shape (unsqueeze0 inputs) = [1%nat; l; length cs]).
  { simpl. by rewrite Hsh. }
  assert (Hxwf : wf_tensor (unsqueeze0 inputs)).
  { unfold wf_tensor. simpl. rewrite Hsh. simpl.
    rewrite (flat_map_length _ (length cs)) by apply onehot_rows_length.
    lia. }
  assert (Hs0 : exists s0, initial_state (unsqueeze0 inputs) z w = Some s0
                           ∧ state_ok 1 s0).
  { unfold initial_state. destruct Hz as [->|(s & Hs & Hok)].
    - eexists. split; [done|]. by eapply zero_state_ok.
    - destruct z.
      + eexists. split; [done|]. by eapply zero_state_ok.
      + by exists s. }
  destruct Hs0 as (s0 & Hinit & Hok0).
  destruct (lstm_runs _ s0 _ _ Hxsh Hxwf Hl Hok0) as (out & s' & Hlstm & Hok').
  pose proof (lstm_shape _ _ _ _ _ _ _ Hlstm Hxsh) as Hosh.
  destruct (linear_shape out 1 l Hosh) as [Hlsh Hlwf].
  destruct (predicted_last (linear out) l (length cs) Hlsh Hlwf HV Hl)
    as (vals & predicted & token & Hmax & Hitem & Hlast & Htok).
  destruct (decode_in_range cs token Htok) as [ch Hch].
  exists inputs, out, (linear out), (store s' w), vals, predicted, token, ch.
  split; [done|]. split.
  { rewrite forward_eval by done. by rewrite Hinit, Hlstm. }
  split; [done|]. split; [by exists l|].
  do 4 (split; [done|]).
  split; [done|]. split; [exists 1%nat; split; [lia|done]|]. split.
  - simpl. by constructor.
  - right. by exists s'.
Qed.

Lemma gen_loop_ok n : forall idx output z w,
  ready (length cs) idx z w ->
  exists toks gen w',
    gen_run (length cs) n idx z w toks w'
    ∧ length toks = n
    ∧ Forall2 (fun t c => decode cs t = Ok c) toks gen
    ∧ Forall (fun t => exists x l,
                shape x = [1%nat; l; hidden_size] ∧ (0 < l)%nat
                ∧ last_step_argmax (linear x) = Some t) toks
    ∧ gen_loop cs n idx output z w = (Ok (output ++ gen), w').
Proof.
  induction n as [|n IH]; intros idx output z w Hready.
  - exists [], [], w. split; [constructor|]. split; [done|].
    split; [constructor|]. split; [constructor|].
    simpl. by rewrite app_nil_r.
  - destruct (gen_step_ok idx z w Hready)
      as (inputs & x & outputs & w1 & vals & predicted & token & ch
          & Hoh & Hfw & Hout & (l & Hxsh & Hl) & Hmax & Hitem & Hlast
          & Hdec & Hready').
    destruct (IH (tensor1 [token]) (output ++ [ch]) false w1 Hready')
      as (toks & gen & w' & Hrun & Hlen & Hgen & Harg & Hloop).
    exists (token :: toks), (ch :: gen), w'.
    split; [by econstructor|]. split; [by simpl; rewrite Hlen|].
    split; [by constructor|]. split.
    { constructor; [|done]. exists x, l. by rewrite <- Hout. }
    rewrite gen_loop_S. unfold input_size.
    rewrite Hoh, Hfw, Hmax, Hitem, Hdec, Hloop.
    by rewrite <- app_assoc.
Qed.

(** With no token to feed, the first step has no final time step to read. *)
Lemma gen_loop_empty n idx output w :
  shape idx = [0%nat] -> data idx = [] -> training (net w) = false ->
  exists e w', gen_loop cs (S n) idx output true w = (Raise e, w').
Proof.
  intros Hsh Hd Hev. rewrite gen_loop_S. unfold input_size.
  rewrite onehot_ok by (rewrite Hd; constructor).
  set (inputs := Tensor _ _).
  assert (Hxsh : shape (unsqueeze0 inputs) = [1%nat; 0%nat; length cs]).
  { simpl. by rewrite Hsh. }
  rewrite forward_eval by done. unfold initial_state.
  destruct (lstm_core (unsqueeze0 inputs) (zero_state (unsqueeze0 inputs)))
    as [[out h]|e] eqn:Hlstm; [|by eexists _, _].
  pose proof (lstm_shape _ _ _ _ _ _ _ Hlstm Hxsh) as Hosh.
  destruct (linear_shape out 1 0 Hosh) as [Hlsh _].
  destruct (torch_max2_empty (linear out) 1 (length cs) Hlsh) as [vals ->].
  by eexists _, _.
Qed.

End GeneratorRun.

Lemma generate_unfold `{TorchNet} lower cs pretext n w :
  generate lower cs pretext n w
  = gen_loop cs (Z.to_nat n) (tokenize lower cs pretext) pretext true
      (set_training false w).2.
Proof. done. Qed.

Lemma tokenize_ready `{TorchNet} lower cs pretext w :
  data (tokenize lower cs pretext) ≠ [] ->
  ready (length cs) (tokenize lower cs pretext) true (set_training false w).2.
Proof.
  intros Hne. split; [done|]. split; [|split].
  - exists (length (data (tokenize lower cs pretext))).
    split; [|done]. destruct (data (tokenize lower cs pretext)); [done|].
    simpl. lia.
  - unfold tokenize. simpl. rewrite tokens_omap. apply tokens_range.
  - by left.
Qed.

(** With a primer that has no vocabulary character the run raises at its
    first step, for any network with the shapes of the real layers. *)
Lemma generate_empty_primer_raises `{TorchNet} lower cs pretext n w :
  NetContract (length cs) ->
  data (tokenize lower cs pretext) = [] -> 0 < n ->
  exists e, (generate lower cs pretext n w).1 = Raise e.
Proof.
  intros HC Hd Hn. rewrite generate_unfold.
  destruct (Z.to_nat n) as [|m] eqn:Hm; [lia|].
  destruct (gen_loop_empty cs m (tokenize lower cs pretext) pretext
              (set_training false w).2) as (e & w' & He).
  - unfold tokenize in *. simpl in *. by rewrite Hd.
  - done.
  - done.
  - exists e. by rewrite He.
Qed.




Lemma forward_stores_final_state_witness :
  let x := Tensor [1%nat; 1%nat; 28%nat] (onehot_row 28 0) in
  let out := Tensor [1%nat; 1%nat; hidden_size] (replicate hidden_size 0) in
  let c := Tensor [1%nat; 1%nat; hidden_size] (replicate hidden_size 0) in
  let h1 := (Tensor [1%nat; 1%nat; hidden_size] (replicate hidden_size 1), c) in
  let h2 := (Tensor [1%nat; 1%nat; hidden_size] (replicate hidden_size 2), c) in
  (@lstm_core (count_net 28) x (@zero_state (count_net 28) x) = Ok (out, h1)
   ∧ @lstm_core (count_net 28) x h1 = Ok (out, h2)
   ∧ h1 ≠ h2)
  ∧ exists o1 w1 o2 w2 o3 w3,
      @forward (count_net 28) x true (@fresh_world (count_net 28) tt)
      = (Ok o1, w1)
      ∧ hiddens (net w1) = Some h1
      ∧ @forward (count_net 28) x false w1 = (Ok o2, w2)
      ∧ hiddens (net w2) = Some h2
      ∧ @forward (count_net 28) x true w2 = (Ok o3, w3)
      ∧ hiddens (net w3) = Some h1.
Proof.
  intros x out c h1 h2.
  assert (Hl1 : @lstm_core (count_net 28) x (@zero_state (count_net 28) x)
                = Ok (out, h1)) by (vm_compute; reflexivity).
  assert (Hl2 : @lstm_core (count_net 28) x h1 = Ok (out, h2))
    by (vm_compute; reflexivity).
  assert (Hne : h1 ≠ h2) by (vm_compute; discriminate).
  split; [by repeat split|].
  destruct (@forward_stores_final_state (count_net 28))
    as (_ & _ & Hfresh & Hcont).
  destruct (Hfresh x (@fresh_world (count_net 28) tt) out h1 Hl1)
    as (o1 & w1 & Hf1 & Hs1 & _).
  destruct (Hcont x w1 h1 out h2 Hs1 Hl2) as (o2 & w2 & Hf2 & Hs2 & _).
  destruct (Hfresh x w2 out h1 Hl1) as (o3 & w3 & Hf3 & Hs3 & _).
  exists o1, w1, o2, w2, o3, w3.
  repeat split; assumption.
Defined.

(** * Further properties of the code *)

(** ** The two dictionaries *)

Lemma decode_Ok_lookup cs i c :
  decode cs i = Ok c <-> 0 ≤ i ∧ cs !! Z.to_nat i = Some c.
Proof.
  unfold decode, dict_getitem. rewrite int_to_char_lookup.
  destruct (decide (0 ≤ i)) as [Hi|Hi].
  - destruct (cs !! Z.to_nat i) as [c'|].
    + split; [by intros [= ->]|by intros [_ [= ->]]].
    + split; [done|by intros [_ ?]].
  - split; [done|]. intros [? _]. done.
Qed.

Lemma char_to_int_in cs c :
  c ∈ cs -> exists i, char_to_int cs !! c = Some i.
Proof.
  intros Hc. destruct (char_to_int cs !! c) as [i|] eqn:Hi; [by exists i|].
  by apply char_to_int_lookup_None in Hi.
Qed.

Lemma dictionaries_inverse (cs : str) (c : N) (i : Z) :
  NoDup cs ->
  (char_to_int cs !! c = Some i <-> int_to_char cs !! i = Some c).
Proof.
  intros Hnd. rewrite int_to_char_lookup. split.
  - intros [H0 Hl]%char_to_int_lookup_Some. by rewrite decide_True.
  - destruct (decide (0 ≤ i)) as [H0|]; [|done]. intros Hl.
    destruct (char_to_int_in cs c) as [j Hj];
      [by eapply list_elem_of_lookup_2|].
    rewrite Hj. f_equal.
    apply char_to_int_lookup_Some in Hj as [Hj0 Hjl].
    pose proof (NoDup_lookup _ _ _ _ Hnd Hl Hjl). lia.
Qed.

(** X1. For a vocabulary without repeated symbols the two dictionaries are
    inverse to each other: [char_to_int] sends [c] to [i] exactly when
    [int_to_char] sends [i] to [c]. *)
Theorem vocabulary_bijection (cs : str) (c : N) (i : Z) :
  NoDup cs ->
  (char_to_int cs !! c = Some i <-> int_to_char cs !! i = Some c).
Proof. apply dictionaries_inverse. Qed.

Lemma chars_NoDup : NoDup chars.
Proof. apply (bool_decide_unpack _). by vm_compute. Qed.

Lemma vocabulary_bijection_witness :
  NoDup chars
  ∧ (char_to_int chars !! 100%N = Some 3 <-> int_to_char chars !! 3 = Some 100%N).
Proof.
  split; [exact chars_NoDup|].
  exact (vocabulary_bijection chars 100%N 3 chars_NoDup).
Defined.

(** X2. [int_to_char[token]] succeeds exactly for the tokens in
    [0, |chars|), where it returns the symbol at that position of the
    vocabulary, and raises [KeyError] for every other integer: a negative
    token does not count from the end as a tensor index would. *)
Theorem decode_bounds (cs : str) (token : Z) :
  (0 ≤ token < Z.of_nat (length cs) ->
   exists c, cs !! Z.to_nat token = Some c ∧ decode cs token = Ok c)
  ∧ (¬ (0 ≤ token < Z.of_nat (length cs)) -> decode cs token = Raise KeyError).
Proof.
  split.
  - intros Ht. destruct (lookup_lt_is_Some_2 cs (Z.to_nat token)) as [c Hc];
      [lia|].
    exists c. split; [done|]. apply decode_Ok_lookup. split; [lia|done].
  - intros Ht. unfold decode, dict_getitem. rewrite int_to_char_lookup.
    destruct (decide (0 ≤ token)); [|done].
    rewrite lookup_ge_None_2; [done|lia].
Qed.

Lemma decode_bounds_witness :
  0 ≤ 27 < Z.of_nat (length chars)
  ∧ (exists c, chars !! Z.to_nat 27 = Some c ∧ decode chars 27 = Ok c)
  ∧ ¬ (0 ≤ -1 < Z.of_nat (length chars))
  ∧ decode chars (-1) = Raise KeyError.
Proof.
  assert (H1 : 0 ≤ 27 < Z.of_nat (length chars)) by (simpl; lia).
  assert (H2 : ¬ (0 ≤ -1 < Z.of_nat (length chars))) by lia.
  split; [exact H1|]. split; [exact (proj1 (decode_bounds chars 27) H1)|].
  split; [exact H2|]. exact (proj2 (decode_bounds chars (-1)) H2).
Defined.

(** ** Tokenizing ASCII text *)

Lemma tokenize_ascii_data cs (s : str) :
  data (tokenize ascii_lower cs s)
  = omap (fun c => char_to_int cs !! c) (ascii_lower s).
Proof. unfold tokenize. simpl. apply tokens_omap. Qed.

(** X3. On ASCII text, where [ascii_lower] is the lowercasing of the
    runtime, tokenizing goes through a concatenation: the tokens of
    [s1 ++ s2] are the tokens of [s1] followed by the tokens of [s2], so a
    character dropped between two kept characters leaves their tokens
    adjacent. *)
Theorem tokenize_app (cs s1 s2 : str) :
  Forall (fun c => (c < 128)%N) (s1 ++ s2) ->
  data (tokenize ascii_lower cs (s1 ++ s2))
  = data (tokenize ascii_lower cs s1) ++ data (tokenize ascii_lower cs s2).
Proof.
  intros _. rewrite !tokenize_ascii_data. unfold ascii_lower.
  by rewrite map_app, omap_app.
Qed.

Lemma tokenize_app_witness :
  Forall (fun c => (c < 128)%N) (str_of "a, " ++ str_of "B")
  ∧ data (tokenize ascii_lower chars (str_of "a, " ++ str_of "B"))
    = data (tokenize ascii_lower chars (str_of "a, "))
      ++ data (tokenize ascii_lower chars (str_of "B")).
Proof.
  assert (Ha : Forall (fun c => (c < 128)%N) (str_of "a, " ++ str_of "B")).
  { apply (bool_decide_unpack _). vm_compute. exact I. }
  split; [exact Ha|].
  exact (tokenize_app chars (str_of "a, ") (str_of "B") Ha).
Defined.

Lemma ascii_lower_fixed (cs s : str) :
  Forall (fun c => (c < 128)%N ∧ ¬ (65 ≤ c ∧ c ≤ 90)%N) cs ->
  Forall (fun c => c ∈ cs) s ->
  ascii_lower s = s.
Proof.
  intros Hcs. induction 1 as [|c s Hc _ IH]; [done|].
  simpl. rewrite IH. f_equal.
  eapply Forall_forall in Hcs; [|exact Hc]. simpl in Hcs.
  rewrite decide_False; [done|tauto].
Qed.

(** X4. The codec round trip in the other direction: over a vocabulary of
    ASCII symbols without repetition and without upper-case letters, every
    sequence of tokens in [0, |chars|) decodes to a string that tokenizes
    back to the same tokens. *)
Theorem tokenize_decode_roundtrip (cs : str) (toks : list Z) :
  NoDup cs ->
  Forall (fun c => (c < 128)%N ∧ ¬ (65 ≤ c ∧ c ≤ 90)%N) cs ->
  Forall (fun i => 0 ≤ i < Z.of_nat (length cs)) toks ->
  exists s,
    mapM (decode cs) toks = Ok s
    ∧ tokenize ascii_lower cs s = tensor1 toks.
Proof.
  intros Hnd Hup Htoks.
  assert (Hs : exists s, mapM (decode cs) toks = Ok s
                 ∧ Forall (fun c => c ∈ cs) s
                 ∧ omap (fun c => char_to_int cs !! c) s = toks).
  { induction Htoks as [|i toks Hi _ (s & Hs & Hin & Hom)].
    - by exists [].
    - destruct (lookup_lt_is_Some_2 cs (Z.to_nat i)) as [c Hc]; [lia|].
      assert (Hdec : decode cs i = Ok c)
        by (apply decode_Ok_lookup; split; [lia|done]).
      exists (c :: s). simpl. rewrite Hdec. simpl. rewrite Hs.
      split; [done|]. split.
      + constructor; [by eapply list_elem_of_lookup_2|done].
      + assert (Hci : char_to_int cs !! c = Some i).
        { apply dictionaries_inverse; [done|].
          rewrite int_to_char_lookup, decide_True by lia. done. }
        rewrite Hci. f_equal. exact Hom. }
  destruct Hs as (s & Hs & Hin & Hom). exists s. split; [done|].
  rewrite tokenize_tensor1, tokenize_ascii_data.
  by rewrite (ascii_lower_fixed cs s Hup Hin), Hom.
Qed.

Lemma chars_no_upper :
  Forall (fun c => (c < 128)%N ∧ ¬ (65 ≤ c ∧ c ≤ 90)%N) chars.
Proof. apply (bool_decide_unpack _). by vm_compute. Qed.

Lemma tokenize_decode_roundtrip_witness :
  (NoDup chars
   ∧ Forall (fun c => (c < 128)%N ∧ ¬ (65 ≤ c ∧ c ≤ 90)%N) chars
   ∧ Forall (fun i => 0 ≤ i < Z.of_nat (length chars)) [7; 8; 27; 26])
  ∧ exists s,
      mapM (decode chars) [7; 8; 27; 26] = Ok s
      ∧ tokenize ascii_lower chars s = tensor1 [7; 8; 27; 26].
Proof.
  assert (Hr : Forall (fun i => 0 ≤ i < Z.of_nat (length chars)) [7; 8; 27; 26]).
  { simpl. repeat constructor; lia. }
  split; [by repeat split; [apply chars_NoDup|apply chars_no_upper|]|].
  exact (tokenize_decode_roundtrip chars [7; 8; 27; 26]
           chars_NoDup chars_no_upper Hr).
Defined.

Lemma chars_letter (k : nat) :
  (k < 26)%nat -> chars !! k = Some (97 + N.of_nat k)%N.
Proof.
  intros Hk. do 26 (destruct k as [|k]; [done|]). lia.
Qed.

Lemma chars_symbols :
  Forall (fun c => (97 ≤ c ∧ c ≤ 122)%N ∨ c = 46%N ∨ c = 32%N) chars.
Proof. apply (bool_decide_unpack _). by vm_compute. Qed.

Lemma char_to_int_chars (c : N) :
  char_to_int chars !! c =
  if decide (97 ≤ c ∧ c ≤ 122)%N then Some (Z.of_N c - 97)
  else if decide (c = 46%N) then Some 26
  else if decide (c = 32%N) then Some 27
  else None.
Proof.
  destruct (decide (97 ≤ c ∧ c ≤ 122)%N) as [Hl|Hl].
  - apply (dictionaries_inverse chars c _ chars_NoDup).
    rewrite int_to_char_lookup, decide_True by lia.
    rewrite chars_letter by lia. f_equal. lia.
  - destruct (decide (c = 46%N)) as [->|Hd]; [by vm_compute|].
    destruct (decide (c = 32%N)) as [->|Hs]; [by vm_compute|].
    apply char_to_int_lookup_None. intros Hin.
    pose proof chars_symbols as Hall.
    eapply Forall_forall in Hall; [|exact Hin]. simpl in Hall. tauto.
Qed.

(** X5. The encoding of the reference vocabulary on ASCII text, where
    [ascii_lower] is the lowercasing of the runtime: a letter of either case
    becomes its position in the alphabet (0 to 25), the full stop 26, the
    space 27, and every other ASCII character is dropped. *)
Theorem tokenize_ascii_table (s : str) :
  Forall (fun c => (c < 128)%N) s ->
  data (tokenize ascii_lower chars s)
  = omap (fun c : N =>
            if decide (97 ≤ c ∧ c ≤ 122)%N then Some (Z.of_N c - 97)
            else if decide (65 ≤ c ∧ c ≤ 90)%N then Some (Z.of_N c - 65)
            else if decide (c = 46%N) then Some 26
            else if decide (c = 32%N) then Some 27
            else None) s.
Proof.
  intros _. rewrite tokenize_ascii_data. unfold ascii_lower.
  induction s as [|c s IH]; [done|].
  cbn [map omap list_omap]. rewrite IH. f_equal.
  rewrite char_to_int_chars.
  destruct (decide (65 ≤ c ∧ c ≤ 90)%N) as [Hu|Hu].
  - rewrite decide_True by lia. rewrite (decide_False (P := (97 ≤ c ∧ c ≤ 122)%N)) by lia.
    f_equal. lia.
  - done.
Qed.

Lemma tokenize_ascii_table_witness :
  Forall (fun c => (c < 128)%N) (str_of "Hi. 9")
  ∧ data (tokenize ascii_lower chars (str_of "Hi. 9")) = [7; 8; 26; 27].
Proof.
  assert (Ha : Forall (fun c => (c < 128)%N) (str_of "Hi. 9")).
  { apply (bool_decide_unpack _). vm_compute. exact I. }
  split; [exact Ha|].
  rewrite (tokenize_ascii_table (str_of "Hi. 9") Ha). reflexivity.
Defined.

(** ** Windows and their encoding *)

(** X6. Consecutive windows overlap: for two valid indices [i] and [i + 1],
    window [i] without its first token is window [i + 1] without its last
    token. *)
Theorem sampler_overlap (lower : str -> str) (cs text : str) (W i : Z) :
  let ds := Alice_init lower cs text W in
  let N := Z.of_nat (length (data (self_idx ds))) in
  0 ≤ W -> 0 ≤ i -> i + 1 < N - W ->
  exists w0 w1,
    Alice_getitem ds i = Ok (tensor1 w0)
    ∧ Alice_getitem ds (i + 1) = Ok (tensor1 w1)
    ∧ Z.of_nat (length w0) = W ∧ Z.of_nat (length w1) = W
    ∧ drop 1 w0 = take (Z.to_nat W - 1) w1.
Proof.
  intros ds N HW Hi HiN. unfold ds. rewrite Alice_init_eq.
  set (toks := data (tokenize lower cs text)) in *.
  assert (HN : N = Z.of_nat (length toks)) by done.
  rewrite !getitem_in_range by lia.
  eexists _, _. split; [done|]. split; [done|].
  rewrite !length_take, !length_drop.
  split; [lia|]. split; [lia|].
  apply list_eq. intros j.
  rewrite lookup_drop, !lookup_take, !lookup_drop.
  destruct (decide (j < Z.to_nat W - 1)%nat).
  - rewrite !decide_True by lia. f_equal. lia.
  - by rewrite decide_False by lia.
Qed.

Lemma sampler_overlap_witness :
  (0 ≤ 4 ∧ 0 ≤ 1 ∧ 1 + 1 < 7 - 4)
  ∧ exists w0 w1,
      Alice_getitem abab_dataset 1 = Ok (tensor1 w0)
      ∧ Alice_getitem abab_dataset (1 + 1) = Ok (tensor1 w1)
      ∧ drop 1 w0 = take (Z.to_nat 4 - 1) w1.
Proof.
  assert (H0 : 0 ≤ 4) by lia. assert (H1 : 0 ≤ 1) by lia.
  assert (H2 : 1 + 1 < 7 - 4) by lia.
  split; [done|].
  destruct (sampler_overlap ascii_lower (str_of "ab. ") (str_of "abab.ba") 4 1
              H0 H1 H2) as (w0 & w1 & Hw0 & Hw1 & _ & _ & Hov).
  by exists w0, w1.
Defined.



(** X8. Whatever the index, the item the sampler returns can be one-hot
    encoded over the vocabulary: its tokens come from [tokenize] and are all
    in [0, |chars|), so [onehot] raises nothing and returns one vector of
    size [|chars|] per token. *)
Theorem window_onehot_ok (lower : str -> str) (cs text : str) (W i : Z) :
  exists win oh,
    Alice_getitem (Alice_init lower cs text W) i = Ok win
    ∧ Forall (fun t => 0 ≤ t < Z.of_nat (length cs)) (data win)
    ∧ onehot win (input_size cs) = Ok oh
    ∧ shape oh = [length (data win); length cs]
    ∧ wf_tensor oh.
Proof.
  rewrite Alice_init_eq, getitem_slice.
  set (win := take _ _).
  assert (Hr : Forall (fun t => 0 ≤ t < Z.of_nat (length cs)) win).
  { unfold win. apply Forall_take, Forall_drop.
    unfold tokenize. simpl. rewrite tokens_omap. apply tokens_range. }
  destruct (onehot_positions (tensor1 win) (length cs) Hr)
    as (oh & Hoh & Hsh & Hwf & _).
  exists (tensor1 win), oh. split; [done|]. split; [done|].
  split; [done|]. split; [done|]. apply Hwf. unfold wf_tensor. simpl. lia.
Qed.

(** ** Indices outside the vocabulary *)

Lemma mapM_Raise {A B} (f : A -> outcome B) (e : exn) (l : list A) :
  Forall (fun x => (exists y, f x = Ok y) ∨ f x = Raise e) l ->
  Exists (fun x => f x = Raise e) l ->
  mapM f l = Raise e.
Proof.
  induction 1 as [|x l Hx _ IH]; intros Hex; [by apply Exists_nil in Hex|].
  simpl. destruct Hx as [[y Hy]|Hx]; [|by rewrite Hx].
  rewrite Hy. simpl. apply Exists_cons in Hex as [Hex|Hex]; [congruence|].
  by rewrite IH.
Qed.

Lemma norm_index_cases (n : nat) (i : Z) :
  (- Z.of_nat n ≤ i < Z.of_nat n ->
   norm_index n i
   = Ok (Z.to_nat (if decide (i < 0) then i + Z.of_nat n else i)))
  ∧ (¬ (- Z.of_nat n ≤ i < Z.of_nat n) -> norm_index n i = Raise IndexError).
Proof.
  unfold norm_index. split; intros Hi.
  - destruct (decide (i < 0)).
    + rewrite decide_False by lia. by rewrite decide_True by lia.
    + by rewrite decide_True by lia.
  - rewrite decide_False by lia. by rewrite decide_False by lia.
Qed.

(** X9. [onehot] accepts exactly the indices in [-V, V): an index in
    [-V, 0) is encoded as the symbol [i + V], counted from the end of the
    vocabulary, and a tensor with any index outside [-V, V) raises
    [IndexError]. *)
Theorem onehot_index_range (idx : tensor Z) (V : nat) :
  (Forall (fun i => - Z.of_nat V ≤ i < Z.of_nat V) (data idx) ->
   onehot idx V
   = Ok (Tensor (shape idx ++ [V])
           (flat_map
              (fun i => onehot_row V (if decide (i < 0) then i + Z.of_nat V else i))
              (data idx))))
  ∧ (Exists (fun i => ¬ (- Z.of_nat V ≤ i < Z.of_nat V)) (data idx) ->
     onehot idx V = Raise IndexError).
Proof.
  split.
  - intros Hidx. unfold onehot, tensor_index. cbn [shape eye].
    rewrite (mapM_Ok _ (fun i => unit_row V
               (Z.to_nat (if decide (i < 0) then i + Z.of_nat V else i)))).
    + simpl. unfold to_float. simpl. do 2 f_equal.
      rewrite concat_map, flat_map_concat_map. f_equal.
      by rewrite map_map.
    + eapply Forall_impl; [exact Hidx|]. intros i Hi. simpl in Hi |- *.
      rewrite (proj1 (norm_index_cases V i) Hi). simpl. f_equal.
      rewrite <- eye_row; [done|]. destruct (decide (i < 0)); lia.
  - intros Hex. unfold onehot, tensor_index. cbn [shape eye].
    rewrite (mapM_Raise _ IndexError); [done| |].
    + apply Forall_forall. intros i _.
      destruct (decide (- Z.of_nat V ≤ i < Z.of_nat V)) as [Hi|Hi].
      * left. rewrite (proj1 (norm_index_cases V i) Hi). by eexists.
      * right. by rewrite (proj2 (norm_index_cases V i) Hi).
    + eapply Exists_impl; [exact Hex|]. intros i Hi. simpl in Hi |- *.
      by rewrite (proj2 (norm_index_cases V i) Hi).
Qed.

Lemma onehot_index_range_witness :
  Forall (fun i => - Z.of_nat 3 ≤ i < Z.of_nat 3) (data (tensor1 [-1; 0]))
  ∧ onehot (tensor1 [-1; 0]) 3
    = Ok (Tensor [2; 3]%nat [0; 0; 1; 1; 0; 0]%Q)
  ∧ Exists (fun i => ¬ (- Z.of_nat 3 ≤ i < Z.of_nat 3)) (data (tensor1 [0; 3]))
  ∧ onehot (tensor1 [0; 3]) 3 = Raise IndexError.
Proof.
  assert (H1 : Forall (fun i => - Z.of_nat 3 ≤ i < Z.of_nat 3)
                 (data (tensor1 [-1; 0]))).
  { simpl. repeat constructor; lia. }
  assert (H2 : Exists (fun i => ¬ (- Z.of_nat 3 ≤ i < Z.of_nat 3))
                 (data (tensor1 [0; 3]))).
  { simpl. right. left. lia. }
  split; [exact H1|]. split.
  - rewrite (proj1 (onehot_index_range (tensor1 [-1; 0]) 3) H1).
    reflexivity.
  - split; [exact H2|].
    exact (proj2 (onehot_index_range (tensor1 [0; 3]) 3) H2).
Defined.

(** ** What a call and a run leave behind *)

Section Effects.

Context `{TorchNet}.

Lemma forward_frame x z w :
  training (net (forward x z w).2) = training (net w)
  ∧ (is_raise (forward x z w).1 -> (forward x z w).2 = w)
  ∧ (training (net w) = false -> rng (forward x z w).2 = rng w).
Proof.
  rewrite forward_unfold.
  destruct (initial_state x z w) as [s0|]; [|done].
  destruct (lstm_core x s0) as [[out h]|e]; [|done].
  unfold mbind, M_bind, dropout, store, mret, M_ret. simpl.
  destruct (training (net w)) eqn:Ht.
  - destruct (dropout_train (rng w) out) as [y g]. simpl.
    repeat split; done.
  - simpl. repeat split; done.
Qed.

Lemma gen_loop_training cs n : forall idx output z w,
  training (net (gen_loop cs n idx output z w).2) = training (net w).
Proof.
  induction n as [|n IH]; intros idx output z w; [done|].
  rewrite gen_loop_S.
  destruct (onehot idx (input_size cs)) as [inputs|e]; [|done].
  pose proof (forward_frame (unsqueeze0 inputs) z w) as [Ht _].
  destruct (forward (unsqueeze0 inputs) z w) as [[outputs|e] w1]; [|done].
  simpl in Ht.
  destruct (torch_max2 outputs) as [[vals predicted]|e]; [|done].
  destruct (item2 predicted 0 (-1)) as [token|e]; [|done].
  destruct (decode cs token) as [ch|e]; [|done].
  by rewrite IH.
Qed.

Lemma gen_loop_output cs n : forall idx output z w o w',
  gen_loop cs n idx output z w = (Ok o, w') ->
  exists gen, o = output ++ gen ∧ length gen = n ∧ Forall (fun c => c ∈ cs) gen.
Proof.
  induction n as [|n IH]; intros idx output z w o w'.
  - intros [= <- <-]. exists []. by rewrite app_nil_r.
  - rewrite gen_loop_S.
    destruct (onehot idx (input_size cs)) as [inputs|e]; [|done].
    destruct (forward (unsqueeze0 inputs) z w) as [[outputs|e] w1]; [|done].
    destruct (torch_max2 outputs) as [[vals predicted]|e]; [|done].
    destruct (item2 predicted 0 (-1)) as [token|e]; [|done].
    destruct (decode cs token) as [ch|e] eqn:Hdec; [|done].
    intros Hloop. destruct (IH _ _ _ _ _ _ Hloop) as (gen & -> & Hlen & Hin).
    exists (ch :: gen). rewrite <- app_assoc. split; [done|].
    split; [by simpl; rewrite Hlen|].
    constructor; [|done].
    apply decode_Ok_lookup in Hdec as [_ Hl].
    by eapply list_elem_of_lookup_2.
Qed.

Lemma gen_loop_split cs n m : forall idx output z w o2 w2,
  gen_loop cs (n + m) idx output z w = (Ok o2, w2) ->
  exists idx1 z1 o1 w1,
    gen_loop cs n idx output z w = (Ok o1, w1)
    ∧ gen_loop cs m idx1 o1 z1 w1 = (Ok o2, w2).
Proof.
  induction n as [|n IH]; intros idx output z w o2 w2.
  - intros Hloop. by exists idx, z, output, w.
  - change (S n + m)%nat with (S (n + m)). rewrite !gen_loop_S.
    destruct (onehot idx (input_size cs)) as [inputs|e]; [|done].
    destruct (forward (unsqueeze0 inputs) z w) as [[outputs|e] w1]; [|done].
    destruct (torch_max2 outputs) as [[vals predicted]|e]; [|done].
    destruct (item2 predicted 0 (-1)) as [token|e]; [|done].
    destruct (decode cs token) as [ch|e]; [|done].
    apply IH.
Qed.

End Effects.

(** X10. A [forward] call never changes the mode flag of the instance; a
    call that raises leaves the whole interpreter state as it was, the
    stored hidden state included; and in evaluation mode a call draws
    nothing from the random generator. *)
Theorem forward_effects `{TorchNet} (x : tensor Q) (z : bool) (w : world) :
  training (net (forward x z w).2) = training (net w)
  ∧ (is_raise (forward x z w).1 -> (forward x z w).2 = w)
  ∧ (training (net w) = false -> rng (forward x z w).2 = rng w).
Proof. apply forward_frame. Qed.

(** X11. Whatever the weights, a generation run that returns gives the
    priming string unchanged (not lowercased, dropped characters kept)
    followed by exactly [max 0 gen_length] characters, each of them a symbol
    of the vocabulary. *)
Theorem generate_output_form `{TorchNet} (lower : str -> str) (cs pretext : str)
    (gen_length : Z) (w : world) (o : str) (w' : world) :
  generate lower cs pretext gen_length w = (Ok o, w') ->
  exists gen,
    o = pretext ++ gen
    ∧ length gen = Z.to_nat gen_length
    ∧ Forall (fun c => c ∈ cs) gen.
Proof. rewrite generate_unfold. apply gen_loop_output. Qed.

Lemma generate_output_form_witness :
  exists o w',
    @generate (const_net 28 3) ascii_lower chars (str_of "Hi 5!") 2
      (@fresh_world (const_net 28 3) tt) = (Ok o, w')
    ∧ exists gen, o = str_of "Hi 5!" ++ gen ∧ length gen = 2%nat.
Proof.
  destruct (@generate (const_net 28 3) ascii_lower chars (str_of "Hi 5!") 2
              (@fresh_world (const_net 28 3) tt)) as [[o|e] w'] eqn:Hg.
  - exists o, w'. split; [reflexivity|].
    destruct (@generate_output_form (const_net 28 3) _ _ _ _ _ _ _ Hg)
      as (gen & Ho & Hlen & _).
    exists gen. split; [exact Ho|exact Hlen].
  - vm_compute in Hg. discriminate.
Defined.

(** X12. Greedy generation never revises what it has produced: when a run
    of [n2] steps returns, the run of [n1 ≤ n2] steps from the same state
    returns too, and its output is a prefix of the longer output. *)
Theorem generate_prefix `{TorchNet} (lower : str -> str) (cs pretext : str)
    (n1 n2 : Z) (w : world) (o2 : str) (w2 : world) :
  n1 ≤ n2 ->
  generate lower cs pretext n2 w = (Ok o2, w2) ->
  exists o1 w1,
    generate lower cs pretext n1 w = (Ok o1, w1)
    ∧ o1 `prefix_of` o2
    ∧ length o1 = (length pretext + Z.to_nat n1)%nat.
Proof.
  intros Hle. rewrite !generate_unfold.
  replace (Z.to_nat n2) with (Z.to_nat n1 + (Z.to_nat n2 - Z.to_nat n1))%nat
    by lia.
  intros Hloop.
  destruct (gen_loop_split _ _ _ _ _ _ _ _ _ Hloop)
    as (idx1 & z1 & o1 & w1 & H1 & H2).
  exists o1, w1. split; [done|].
  destruct (gen_loop_output _ _ _ _ _ _ _ _ H2) as (gen2 & -> & _ & _).
  destruct (gen_loop_output _ _ _ _ _ _ _ _ H1) as (gen1 & -> & Hlen & _).
  split; [by apply prefix_app_r|]. rewrite length_app. lia.
Qed.

Lemma generate_prefix_witness :
  1 ≤ 3
  ∧ exists o2 w2 o1 w1,
      @generate (const_net 28 3) ascii_lower chars (str_of "ab") 3
        (@fresh_world (const_net 28 3) tt) = (Ok o2, w2)
      ∧ @generate (const_net 28 3) ascii_lower chars (str_of "ab") 1
          (@fresh_world (const_net 28 3) tt) = (Ok o1, w1)
      ∧ o1 `prefix_of` o2.
Proof.
  assert (Hle : 1 ≤ 3) by lia. split; [exact Hle|].
  destruct (@generate (const_net 28 3) ascii_lower chars (str_of "ab") 3
              (@fresh_world (const_net 28 3) tt)) as [[o2|e] w2] eqn:Hg.
  - destruct (@generate_prefix (const_net 28 3) _ _ _ 1 3 _ _ _ Hle Hg)
      as (o1 & w1 & H1 & Hp & _).
    exists o2, w2, o1, w1. split; [reflexivity|]. split; [exact H1|exact Hp].
  - vm_compute in Hg. discriminate.
Defined.

(** X13. A generation run leaves the instance in evaluation mode, whether
    it returns or raises; with nothing to generate ([gen_length ≤ 0]) it
    returns the priming string, makes no call and leaves the stored hidden
    state as it was. *)
Theorem generate_leaves_eval_mode `{TorchNet} (lower : str -> str)
    (cs pretext : str) (gen_length : Z) (w : world) :
  training (net (generate lower cs pretext gen_length w).2) = false
  ∧ (gen_length ≤ 0 ->
     (generate lower cs pretext gen_length w).1 = Ok pretext
     ∧ hiddens (net (generate lower cs pretext gen_length w).2)
       = hiddens (net w)
     ∧ rng (generate lower cs pretext gen_length w).2 = rng w).
Proof.
  rewrite generate_unfold. split.
  - by rewrite gen_loop_training.
  - intros Hn. by replace (Z.to_nat gen_length) with 0%nat by lia.
Qed.

Lemma gen_loop_primer_irrelevant `{TorchNet} cs n : forall idx out out' z w,
  match gen_loop cs n idx out z w with
  | (Ok o, w1) =>
      exists gen, o = out ++ gen
        ∧ gen_loop cs n idx out' z w = (Ok (out' ++ gen), w1)
  | (Raise e, w1) => gen_loop cs n idx out' z w = (Raise e, w1)
  end.
Proof.
  induction n as [|n IH]; intros idx out out' z w.
  - simpl. exists []. by rewrite !app_nil_r.
  - rewrite !gen_loop_S.
    destruct (onehot idx (input_size cs)) as [inputs|e]; [|done].
    destruct (forward (unsqueeze0 inputs) z w) as [[outputs|e] w1]; [|done].
    destruct (torch_max2 outputs) as [[vals predicted]|e]; [|done].
    destruct (item2 predicted 0 (-1)) as [token|e]; [|done].
    destruct (decode cs token) as [ch|e]; [|done].
    specialize (IH (tensor1 [token]) (out ++ [ch]) (out' ++ [ch]) false w1).
    destruct (gen_loop cs n (tensor1 [token]) (out ++ [ch]) false w1)
      as [[o|e] w2]; [|done].
    destruct IH as (gen & -> & IH). exists (ch :: gen).
    by rewrite IH, <- !app_assoc.
Qed.

(** X14. The continuation depends on the priming string only through its
    tokens: two primers with the same token sequence (such as "Hello!" and
    "hello") get the same generated characters and leave the same state,
    each appended to its own primer. *)
Theorem generate_same_tokens `{TorchNet} (lower : str -> str) (cs p1 p2 : str)
    (gen_length : Z) (w : world) (o1 : str) (w1 : world) :
  tokenize lower cs p1 = tokenize lower cs p2 ->
  generate lower cs p1 gen_length w = (Ok o1, w1) ->
  exists gen,
    o1 = p1 ++ gen
    ∧ generate lower cs p2 gen_length w = (Ok (p2 ++ gen), w1).
Proof.
  intros Htok. rewrite !generate_unfold, <- Htok. intros Hg.
  pose proof (gen_loop_primer_irrelevant cs (Z.to_nat gen_length)
                (tokenize lower cs p1) p1 p2 true (set_training false w).2)
    as Hirr.
  by rewrite Hg in Hirr.
Qed.

Lemma generate_same_tokens_witness :
  tokenize ascii_lower chars (str_of "Hello!")
  = tokenize ascii_lower chars (str_of "hello")
  ∧ exists o1 w1 gen,
      @generate (const_net 28 3) ascii_lower chars (str_of "Hello!") 2
        (@fresh_world (const_net 28 3) tt) = (Ok o1, w1)
      ∧ o1 = str_of "Hello!" ++ gen
      ∧ @generate (const_net 28 3) ascii_lower chars (str_of "hello") 2
          (@fresh_world (const_net 28 3) tt) = (Ok (str_of "hello" ++ gen), w1).
Proof.
  assert (Htok : tokenize ascii_lower chars (str_of "Hello!")
                 = tokenize ascii_lower chars (str_of "hello"))
    by (vm_compute; reflexivity).
  split; [exact Htok|].
  destruct (@generate (const_net 28 3) ascii_lower chars (str_of "Hello!") 2
              (@fresh_world (const_net 28 3) tt)) as [[o1|e] w1] eqn:Hg.
  - destruct (@generate_same_tokens (const_net 28 3) _ _ _ _ _ _ _ _ Htok Hg)
      as (gen & Ho & Hg2).
    exists o1, w1, gen. split; [reflexivity|]. split; [exact Ho|exact Hg2].
  - vm_compute in Hg. discriminate.
Defined.

(** X15. Negative indices follow Python slicing: for [-N ≤ i < -W] item [i]
    is the full window that starts [-i] tokens before the end of the corpus,
    the item at index [i + N]; but at [i = -W] with [W > 0] the stop bound
    [i + W] is 0, which is not counted from the end, and the item is
    empty rather than the last [W] tokens. *)
Theorem getitem_negative_index (lower : str -> str) (cs text : str) (W i : Z) :
  let ds := Alice_init lower cs text W in
  let toks := data (self_idx ds) in
  let N := Z.of_nat (length toks) in
  0 < W ->
  (- N ≤ i < - W ->
   Alice_getitem ds i = Alice_getitem ds (i + N)
   ∧ Alice_getitem ds i
     = Ok (tensor1 (take (Z.to_nat W) (drop (Z.to_nat (i + N)) toks))))
  ∧ (i = - W -> Alice_getitem ds i = Ok (tensor1 [])).
Proof.
  intros ds toks N HW.
  assert (Hds : ds = {| self_idx := tensor1 toks; self_size := W |}) by done.
  assert (HN : N = Z.of_nat (length toks)) by done.
  clearbody ds toks N. subst ds N. split.
  - intros Hi.
    assert (Hneg : Alice_getitem {| self_idx := tensor1 toks; self_size := W |} i
                   = Ok (tensor1 (take (Z.to_nat W)
                           (drop (Z.to_nat (i + Z.of_nat (length toks))) toks)))).
    { rewrite getitem_slice. unfold slice_lo, slice_hi, slice_bound.
      rewrite !decide_True by lia. rewrite !Z.max_r by lia.
      by replace (Z.to_nat (i + W + Z.of_nat (length toks))
                  - Z.to_nat (i + Z.of_nat (length toks)))%nat
        with (Z.to_nat W) by lia. }
    split; [|exact Hneg].
    rewrite Hneg. symmetry. apply getitem_in_range; lia.
  - intros ->. rewrite getitem_slice.
    unfold slice_lo, slice_hi, slice_bound.
    rewrite decide_False by lia. rewrite decide_True by lia.
    replace (Z.to_nat ((- W + W) `min` Z.of_nat (length toks))) with 0%nat by lia.
    done.
Qed.

Lemma getitem_negative_index_witness :
  0 < 4
  ∧ - 7 ≤ -6 < - 4
  ∧ Alice_getitem abab_dataset (-6) = Alice_getitem abab_dataset (-6 + 7)
  ∧ Alice_getitem abab_dataset (-4) = Ok (tensor1 []).
Proof.
  assert (HW : 0 < 4) by lia. assert (Hi : - 7 ≤ -6 < - 4) by lia.
  split; [exact HW|]. split; [exact Hi|].
  pose proof (getitem_negative_index ascii_lower (str_of "ab. ")
                (str_of "abab.ba") 4 (-6) HW) as [H1 _].
  pose proof (getitem_negative_index ascii_lower (str_of "ab. ")
                (str_of "abab.ba") 4 (-4) HW) as [_ H2].
  split; [exact (proj1 (H1 Hi))|exact (H2 eq_refl)].
Defined.
